(** * UART ring buffer driver (NUCLEO-L432KC): shallow embedding and proofs

    The development embeds [Core/Src/uart_ring_buffer.c] (with the types of
    [uart_ring_buffer.h]) as Rocq functions over an explicit state, and
    proves the properties of the ring buffers, of the streaming matcher used
    by [UART_WaitForString] and [UART_CopyUntil], of [UART_ExtractBetween]
    and of the tick-based timeout.

    Conventions.
    - C integers are [Z]; every conversion to a fixed width is written out
      with [u8], [u16], [u32] and [sz] (size_t, 32 bits on the Cortex-M4).
      The C operator [%] on [int] is [Z.rem].
    - [char] is unsigned on the ARM EABI, so a [char] and a [uint8_t] hold
      the same values 0..255.
    - A [const char *] is an [option (list Z)]: [None] is NULL, [Some s]
      points to the bytes [s] followed by the terminating NUL.
    - A writable [char *] is an [option (list Z)] as well: [Some d] is the
      array the pointer designates, updated in place with stdpp's list
      insert (which leaves the list alone out of range, where C has no
      defined behaviour).
    - The foreground code runs against interrupts.  The state carries the
      schedule of the interrupts still to come; one interrupt is taken each
      time a busy-wait loop goes round, and SysTick keeps firing once the
      schedule is used up.  Busy-wait loops take a fuel argument. *)

From Stdlib Require Import ZArith Lia Bool.
From stdpp Require Import base numbers option list.

Local Open Scope Z_scope.

(** ** Machine integers *)

Definition u8 (x : Z) : Z := x mod 2 ^ 8.
Definition u16 (x : Z) : Z := x mod 2 ^ 16.
Definition u32 (x : Z) : Z := x mod 2 ^ 32.

(** [size_t] and its largest value. *)
Definition sz (x : Z) : Z := x mod 2 ^ 32.
Definition SIZE_MAX : Z := 2 ^ 32 - 1.

(** ** Configuration ([uart_ring_buffer.c], configuration section) *)

Definition DEFAULT_TIMEOUT_MS : Z := 500.
Definition UART_BUFFER_SIZE : Z := 1024.

(** ** Types ([uart_ring_buffer.h]) *)

Inductive UART_ErrorTypeDef : Type :=
  | UART_SUCCESS
  | UART_ERROR_TIMEOUT
  | UART_ERROR_BUFFER_FULL
  | UART_ERROR_BUFFER_EMPTY
  | UART_ERROR_INVALID_PARAM
  | UART_ERROR_NOT_FOUND.

Record RingBuffer_TypeDef : Type := mkRingBuffer {
  buffer : list Z;   (* uint8_t buffer[UART_BUFFER_SIZE] *)
  head : Z;          (* volatile uint16_t *)
  tail : Z           (* volatile uint16_t *)
}.

(** ** C strings and memory blocks *)

(** [str[i]]: the terminating NUL is read at index [strlen str].  An index
    beyond it is outside the object; the code reaches none as long as the
    pattern is not empty, and it reads as 0 here. *)
Definition str_at (str : list Z) (i : Z) : Z :=
  default 0 (str !! Z.to_nat i).

Definition strlen (str : list Z) : Z := Z.of_nat (length str).

(** [memcmp(a, b, n)]: zero when the first [n] bytes agree, otherwise the
    difference of the first two bytes that differ. *)
Fixpoint memcmp (a b : list Z) (n : nat) : Z :=
  match n with
  | O => 0
  | S k =>
      let x := hd 0 a in
      let y := hd 0 b in
      if x =? y then memcmp (List.tl a) (List.tl b) k else x - y
  end.

(** [memcpy(dest, src, n)], stopping where either object ends. *)
Fixpoint memcpy (dest src : list Z) (n : nat) : list Z :=
  match n, dest, src with
  | S k, _ :: dest', x :: src' => x :: memcpy dest' src' k
  | _, _, _ => dest
  end.

(** ** Platform: tick counter, USART interrupt enables, interrupts *)

(** An interrupt that preempts the foreground code: SysTick (one more
    millisecond), or the USART interrupt with the RXNE flag (and the value
    of RDR) and the TXE flag as the handler reads them from ISR. *)
Inductive Event : Type :=
  | SysTick
  | Usart (rxne : option Z) (txe : bool).

Record World : Type := mkWorld {
  (* private variables of uart_ring_buffer.c *)
  rx_buffer : RingBuffer_TypeDef;
  tx_buffer : RingBuffer_TypeDef;
  timeout_start : Z;            (* volatile uint32_t *)
  (* platform *)
  ticks : Z;                    (* milliseconds since boot, unbounded *)
  cr1_rxneie : bool;            (* USART_CR1_RXNEIE *)
  cr1_txeie : bool;             (* USART_CR1_TXEIE *)
  cr3_eie : bool;               (* UART_IT_ERR *)
  tdr_sent : list Z;            (* bytes written to TDR, oldest first *)
  schedule : list Event         (* interrupts still to come *)
}.

Definition set_rx_buffer (b : RingBuffer_TypeDef) (w : World) : World :=
  mkWorld b (tx_buffer w) (timeout_start w) (ticks w) (cr1_rxneie w)
          (cr1_txeie w) (cr3_eie w) (tdr_sent w) (schedule w).

Definition set_tx_buffer (b : RingBuffer_TypeDef) (w : World) : World :=
  mkWorld (rx_buffer w) b (timeout_start w) (ticks w) (cr1_rxneie w)
          (cr1_txeie w) (cr3_eie w) (tdr_sent w) (schedule w).

Definition set_timeout_start (t : Z) (w : World) : World :=
  mkWorld (rx_buffer w) (tx_buffer w) t (ticks w) (cr1_rxneie w)
          (cr1_txeie w) (cr3_eie w) (tdr_sent w) (schedule w).

Definition set_ticks (t : Z) (w : World) : World :=
  mkWorld (rx_buffer w) (tx_buffer w) (timeout_start w) t (cr1_rxneie w)
          (cr1_txeie w) (cr3_eie w) (tdr_sent w) (schedule w).

Definition set_cr1_rxneie (b : bool) (w : World) : World :=
  mkWorld (rx_buffer w) (tx_buffer w) (timeout_start w) (ticks w) b
          (cr1_txeie w) (cr3_eie w) (tdr_sent w) (schedule w).

Definition set_cr1_txeie (b : bool) (w : World) : World :=
  mkWorld (rx_buffer w) (tx_buffer w) (timeout_start w) (ticks w)
          (cr1_rxneie w) b (cr3_eie w) (tdr_sent w) (schedule w).

Definition set_cr3_eie (b : bool) (w : World) : World :=
  mkWorld (rx_buffer w) (tx_buffer w) (timeout_start w) (ticks w)
          (cr1_rxneie w) (cr1_txeie w) b (tdr_sent w) (schedule w).

Definition set_tdr_sent (l : list Z) (w : World) : World :=
  mkWorld (rx_buffer w) (tx_buffer w) (timeout_start w) (ticks w)
          (cr1_rxneie w) (cr1_txeie w) (cr3_eie w) l (schedule w).

Definition set_schedule (s : list Event) (w : World) : World :=
  mkWorld (rx_buffer w) (tx_buffer w) (timeout_start w) (ticks w)
          (cr1_rxneie w) (cr1_txeie w) (cr3_eie w) (tdr_sent w) s.

(** [HAL_GetTick()]: the 32-bit millisecond counter of the HAL. *)
Definition HAL_GetTick (w : World) : Z := u32 (ticks w).

(** ** Private functions *)

(** [StoreChar(c, buffer)] *)
Definition StoreChar (c : Z) (b : RingBuffer_TypeDef)
  : UART_ErrorTypeDef * RingBuffer_TypeDef :=
  let next_head := u16 (Z.rem (head b + 1) UART_BUFFER_SIZE) in
  if next_head =? tail b then (UART_ERROR_BUFFER_FULL, b)
  else (UART_SUCCESS,
        mkRingBuffer (<[Z.to_nat (head b) := c]> (buffer b)) next_head (tail b)).

(** [IsTimeOutExpired(timeout_ms)] *)
Definition IsTimeOutExpired (timeout_ms : Z) (w : World) : bool :=
  timeout_ms <=? u32 (HAL_GetTick w - timeout_start w).

(** [ResetTimeout()] *)
Definition ResetTimeout (w : World) : World :=
  set_timeout_start (HAL_GetTick w) w.

(** [UART_Available()] *)
Definition UART_Available (w : World) : Z :=
  u16 (Z.rem (UART_BUFFER_SIZE + head (rx_buffer w) - tail (rx_buffer w))
             UART_BUFFER_SIZE).

(** [UART_ISR_Handler(huart)]; [is_instance] tells whether [huart] is
    [UART_INSTANCE], [rxne] and [txe] are the flags read from ISR. *)
Definition UART_ISR_Handler (is_instance : bool) (rxne : option Z) (txe : bool)
    (w : World) : World :=
  if negb is_instance then w
  else
    let w1 :=
      match rxne with
      | Some rdr =>
          if cr1_rxneie w then
            let received_char := u8 rdr in
            set_rx_buffer (snd (StoreChar received_char (rx_buffer w))) w
          else w
      | None => w
      end in
    if txe && cr1_txeie w then
      if head (tx_buffer w1) =? tail (tx_buffer w1) then
        set_cr1_txeie false w1
      else
        let c := default 0 (buffer (tx_buffer w1) !! Z.to_nat (tail (tx_buffer w1))) in
        let tb := mkRingBuffer (buffer (tx_buffer w1)) (head (tx_buffer w1))
                    (u16 (Z.rem (tail (tx_buffer w1) + 1) UART_BUFFER_SIZE)) in
        set_tdr_sent (tdr_sent w1 ++ [c]) (set_tx_buffer tb w1)
    else w1.

(** One interrupt. *)
Definition interrupt (e : Event) (w : World) : World :=
  match e with
  | SysTick => set_ticks (ticks w + 1) w
  | Usart rxne txe => UART_ISR_Handler true rxne txe w
  end.

(** What happens between two rounds of a busy-wait loop: the next interrupt
    of the schedule, or SysTick when the schedule is used up. *)
Definition preempt (w : World) : World :=
  match schedule w with
  | [] => interrupt SysTick w
  | e :: rest => interrupt e (set_schedule rest w)
  end.

(** [WaitForData(timeout_ms)] *)
Fixpoint WaitForData_loop (fuel : nat) (timeout_ms : Z) (w : World)
  : option (UART_ErrorTypeDef * World) :=
  match fuel with
  | O => None
  | S fuel' =>
      if UART_Available w =? 0 then
        if IsTimeOutExpired timeout_ms w then Some (UART_ERROR_TIMEOUT, w)
        else WaitForData_loop fuel' timeout_ms (preempt w)
      else Some (UART_SUCCESS, w)
  end.

Definition WaitForData (fuel : nat) (timeout_ms : Z) (w : World)
  : option (UART_ErrorTypeDef * World) :=
  WaitForData_loop fuel timeout_ms (ResetTimeout w).

(** [FindStringInBuffer(str, buffer, buffer_len)]; the [for] loop runs
    [buffer_len - str_len + 1] times at most. *)
Fixpoint FindStringInBuffer_loop (n : nat) (i : Z) (str buf : list Z)
    (str_len : Z) : Z :=
  match n with
  | O => SIZE_MAX
  | S k =>
      if memcmp (drop (Z.to_nat i) buf) str (Z.to_nat str_len) =? 0 then i
      else FindStringInBuffer_loop k (sz (i + 1)) str buf str_len
  end.

Definition FindStringInBuffer (str buf : option (list Z)) (buffer_len : Z) : Z :=
  match str, buf with
  | Some str, Some buf =>
      let str_len := strlen str in
      if (str_len =? 0) || (buffer_len <? str_len) then SIZE_MAX
      else FindStringInBuffer_loop (Z.to_nat (sz (buffer_len - str_len) + 1))
             0 str buf str_len
  | _, _ => SIZE_MAX
  end.

(** ** Public functions *)

(** [UART_RingBuff_Init()] *)
Definition UART_RingBuff_Init (w : World) : UART_ErrorTypeDef * World :=
  let zeroed := mkRingBuffer (replicate (Z.to_nat UART_BUFFER_SIZE) 0) 0 0 in
  let w := set_rx_buffer zeroed w in
  let w := set_tx_buffer zeroed w in
  let w := set_cr3_eie true w in
  let w := set_cr1_rxneie true w in
  (UART_SUCCESS, w).

(** [UART_ReadChar(c)]; [c] is the cell the pointer designates, returned
    with its new content. *)
Definition UART_ReadChar (c : option Z) (w : World)
  : UART_ErrorTypeDef * option Z * World :=
  match c with
  | None => (UART_ERROR_INVALID_PARAM, c, w)
  | Some _ =>
      let rb := rx_buffer w in
      if head rb =? tail rb then (UART_ERROR_BUFFER_EMPTY, c, w)
      else
        let v := default 0 (buffer rb !! Z.to_nat (tail rb)) in
        let rb' := mkRingBuffer (buffer rb) (head rb)
                     (u16 (Z.rem (tail rb + 1) UART_BUFFER_SIZE)) in
        (UART_SUCCESS, Some v, set_rx_buffer rb' w)
  end.

(** [UART_WriteChar(c)] *)
Fixpoint UART_WriteChar_loop (fuel : nat) (next_head : Z) (w : World)
  : option (option UART_ErrorTypeDef * World) :=
  match fuel with
  | O => None
  | S fuel' =>
      if next_head =? tail (tx_buffer w) then
        if IsTimeOutExpired DEFAULT_TIMEOUT_MS w
        then Some (Some UART_ERROR_TIMEOUT, w)
        else UART_WriteChar_loop fuel' next_head (preempt w)
      else Some (None, w)
  end.

Definition UART_WriteChar (fuel : nat) (c : Z) (w : World)
  : option (UART_ErrorTypeDef * World) :=
  let next_head := u16 (Z.rem (head (tx_buffer w) + 1) UART_BUFFER_SIZE) in
  match UART_WriteChar_loop fuel next_head (ResetTimeout w) with
  | None => None
  | Some (Some e, w1) => Some (e, w1)
  | Some (None, w1) =>
      let tb := tx_buffer w1 in
      let tb' := mkRingBuffer (<[Z.to_nat (head tb) := c]> (buffer tb))
                   next_head (tail tb) in
      Some (UART_SUCCESS, set_cr1_txeie true (set_tx_buffer tb' w1))
  end.

(** [UART_SendString(str)] *)
Fixpoint UART_SendString_loop (fuel : nat) (str : list Z) (w : World)
  : option (UART_ErrorTypeDef * World) :=
  match str with
  | [] => Some (UART_SUCCESS, w)
  | c :: str' =>
      match UART_WriteChar fuel c w with
      | None => None
      | Some (UART_SUCCESS, w1) => UART_SendString_loop fuel str' w1
      | Some (result, w1) => Some (result, w1)
      end
  end.

Definition UART_SendString (fuel : nat) (str : option (list Z)) (w : World)
  : option (UART_ErrorTypeDef * World) :=
  match str with
  | None => Some (UART_ERROR_INVALID_PARAM, w)
  | Some str => UART_SendString_loop fuel str w
  end.

(** [UART_Peek(c)] *)
Definition UART_Peek (c : option Z) (w : World)
  : UART_ErrorTypeDef * option Z * World :=
  match c with
  | None => (UART_ERROR_INVALID_PARAM, c, w)
  | Some _ =>
      let rb := rx_buffer w in
      if head rb =? tail rb then (UART_ERROR_BUFFER_EMPTY, c, w)
      else (UART_SUCCESS, Some (default 0 (buffer rb !! Z.to_nat (tail rb))), w)
  end.

(** [UART_FlushRX()]; interrupts are masked for the duration, so no
    interrupt is taken inside. *)
Definition UART_FlushRX (w : World) : World :=
  set_rx_buffer (mkRingBuffer (replicate (Z.to_nat UART_BUFFER_SIZE) 0) 0 0) w.

(** The matcher step shared by [UART_WaitForString] and [UART_CopyUntil]:
<<
    if (c == str[match_pos]) match_pos++;
    else if (c == str[0])    match_pos = 1;
    else                     match_pos = 0;
>> *)
Definition match_step (str : list Z) (match_pos : Z) (c : Z) : Z :=
  if c =? str_at str match_pos then sz (match_pos + 1)
  else if c =? str_at str 0 then 1
  else 0.

(** [UART_WaitForString(str, timeout_ms)] *)
Fixpoint UART_WaitForString_loop (fuel : nat) (str : list Z)
    (str_len match_pos timeout_ms : Z) (w : World)
  : option (UART_ErrorTypeDef * World) :=
  match fuel with
  | O => None
  | S fuel' =>
      if match_pos <? str_len then
        match WaitForData fuel' timeout_ms w with
        | None => None
        | Some (UART_SUCCESS, w1) =>
            match UART_ReadChar (Some 0) w1 with
            | (UART_SUCCESS, c, w2) =>
                let c := default 0 c in
                let match_pos := match_step str match_pos c in
                let w3 := if 0 <? match_pos then ResetTimeout w2 else w2 in
                UART_WaitForString_loop fuel' str str_len match_pos timeout_ms w3
            | (_, _, w2) =>
                UART_WaitForString_loop fuel' str str_len match_pos timeout_ms w2
            end
        | Some (_, w1) => Some (UART_ERROR_TIMEOUT, w1)
        end
      else Some (UART_SUCCESS, w)
  end.

Definition UART_WaitForString (fuel : nat) (str : option (list Z))
    (timeout_ms : Z) (w : World) : option (UART_ErrorTypeDef * World) :=
  match str with
  | None => Some (UART_ERROR_INVALID_PARAM, w)
  | Some str =>
      if strlen str =? 0 then Some (UART_ERROR_INVALID_PARAM, w)
      else
        let str_len := strlen str in
        let match_pos := 0 in
        UART_WaitForString_loop fuel str str_len match_pos timeout_ms
          (ResetTimeout w)
  end.

(** [UART_CopyUntil(end_str, buffer, buffer_size, timeout_ms)]; the result
    carries the destination array. *)
Fixpoint UART_CopyUntil_loop (fuel : nat) (end_str dest : list Z)
    (buffer_size str_len buffer_pos match_pos timeout_ms : Z) (w : World)
  : option (UART_ErrorTypeDef * list Z * World) :=
  match fuel with
  | O => None
  | S fuel' =>
      if buffer_pos <? sz (buffer_size - 1) then
        match WaitForData fuel' timeout_ms w with
        | None => None
        | Some (UART_SUCCESS, w1) =>
            match UART_ReadChar (Some 0) w1 with
            | (UART_SUCCESS, c, w2) =>
                let c := default 0 c in
                let dest := <[Z.to_nat buffer_pos := c]> dest in
                let buffer_pos := sz (buffer_pos + 1) in
                if c =? str_at end_str match_pos then
                  let match_pos := sz (match_pos + 1) in
                  if match_pos =? str_len then
                    Some (UART_SUCCESS, <[Z.to_nat buffer_pos := 0]> dest, w2)
                  else
                    UART_CopyUntil_loop fuel' end_str dest buffer_size str_len
                      buffer_pos match_pos timeout_ms w2
                else if c =? str_at end_str 0 then
                  UART_CopyUntil_loop fuel' end_str dest buffer_size str_len
                    buffer_pos 1 timeout_ms w2
                else
                  UART_CopyUntil_loop fuel' end_str dest buffer_size str_len
                    buffer_pos 0 timeout_ms w2
            | (_, _, w2) =>
                UART_CopyUntil_loop fuel' end_str dest buffer_size str_len
                  buffer_pos match_pos timeout_ms w2
            end
        | Some (_, w1) => Some (UART_ERROR_TIMEOUT, dest, w1)
        end
      else Some (UART_ERROR_BUFFER_FULL, <[Z.to_nat buffer_pos := 0]> dest, w)
  end.

Definition UART_CopyUntil (fuel : nat) (end_str dest : option (list Z))
    (buffer_size timeout_ms : Z) (w : World)
  : option (UART_ErrorTypeDef * option (list Z) * World) :=
  match end_str, dest with
  | Some end_str, Some d =>
      if buffer_size =? 0 then Some (UART_ERROR_INVALID_PARAM, dest, w)
      else
        let str_len := strlen end_str in
        match UART_CopyUntil_loop fuel end_str d buffer_size str_len 0 0
                timeout_ms (ResetTimeout w) with
        | None => None
        | Some (e, d', w') => Some (e, Some d', w')
        end
  | _, _ => Some (UART_ERROR_INVALID_PARAM, dest, w)
  end.

(** [UART_ExtractBetween(start_str, end_str, source, dest, dest_size)]; the
    result carries the destination array. *)
Definition UART_ExtractBetween (start_str end_str source dest : option (list Z))
    (dest_size : Z) : UART_ErrorTypeDef * option (list Z) :=
  match start_str, end_str, source, dest with
  | Some start, Some end_s, Some src, Some d =>
      if dest_size =? 0 then (UART_ERROR_INVALID_PARAM, dest)
      else
        let source_len := strlen src in
        let start_pos := FindStringInBuffer start_str source source_len in
        if start_pos =? SIZE_MAX then (UART_ERROR_NOT_FOUND, dest)
        else
          let start_pos := sz (start_pos + strlen start) in
          let end_pos :=
            FindStringInBuffer end_str (Some (drop (Z.to_nat start_pos) src))
              (sz (source_len - start_pos)) in
          if end_pos =? SIZE_MAX then (UART_ERROR_NOT_FOUND, dest)
          else
            let end_pos := sz (end_pos + start_pos) in
            let copy_len := sz (end_pos - start_pos) in
            let copy_len :=
              if dest_size <=? copy_len then sz (dest_size - 1) else copy_len in
            let d := memcpy d (drop (Z.to_nat start_pos) src) (Z.to_nat copy_len) in
            (UART_SUCCESS, Some (<[Z.to_nat copy_len := 0]> d))
  | _, _, _, _ => (UART_ERROR_INVALID_PARAM, dest)
  end.

(** ** Specification-level notions *)

(** *** Ring buffer invariant and abstraction *)

(** The indices stay inside the array. *)
Definition rb_wf (b : RingBuffer_TypeDef) : Prop :=
  length (buffer b) = Z.to_nat UART_BUFFER_SIZE ∧
  0 ≤ head b < UART_BUFFER_SIZE ∧
  0 ≤ tail b < UART_BUFFER_SIZE.

(** Number of slots from [tail] up to [head], going round. *)
Definition rb_pending (b : RingBuffer_TypeDef) : nat :=
  Z.to_nat ((head b - tail b) mod UART_BUFFER_SIZE).

Fixpoint rb_read (buf : list Z) (pos : Z) (n : nat) : list Z :=
  match n with
  | O => []
  | S k =>
      default 0 (buf !! Z.to_nat pos)
        :: rb_read buf ((pos + 1) mod UART_BUFFER_SIZE) k
  end.

(** The unread bytes, oldest first. *)
Definition rb_contents (b : RingBuffer_TypeDef) : list Z :=
  rb_read (buffer b) (tail b) (rb_pending b).

(** *** Pushes and pops on the RX buffer, against a queue *)

Inductive RingOp : Type :=
  | Push (c : Z)   (* StoreChar(c, &rx_buffer), as the interrupt handler does *)
  | Pop.           (* UART_ReadChar(&c) *)

(** What one operation shows: its result code, the byte read (for a
    successful pop), and [UART_Available()] right after it. *)
Definition Observation : Type := (UART_ErrorTypeDef * option Z * Z)%type.

Definition rx_step (o : RingOp) (w : World) : Observation * World :=
  match o with
  | Push c =>
      let '(e, rb) := StoreChar c (rx_buffer w) in
      let w' := set_rx_buffer rb w in
      ((e, None, UART_Available w'), w')
  | Pop =>
      match UART_ReadChar (Some 0) w with
      | (UART_SUCCESS, c, w') => ((UART_SUCCESS, c, UART_Available w'), w')
      | (e, _, w') => ((e, None, UART_Available w'), w')
      end
  end.

Fixpoint rx_run (ops : list RingOp) (w : World) : list Observation :=
  match ops with
  | [] => []
  | o :: ops' => let '(obs, w') := rx_step o w in obs :: rx_run ops' w'
  end.

(** The queue of the specification: a list of unread bytes. *)
Definition queue_step (o : RingOp) (q : list Z) : Observation * list Z :=
  match o with
  | Push c => ((UART_SUCCESS, None, Z.of_nat (length (q ++ [c]))), q ++ [c])
  | Pop =>
      match q with
      | [] => ((UART_ERROR_BUFFER_EMPTY, None, 0), [])
      | x :: q' => ((UART_SUCCESS, Some x, Z.of_nat (length q')), q')
      end
  end.

Fixpoint queue_run (ops : list RingOp) (q : list Z) : list Observation :=
  match ops with
  | [] => []
  | o :: ops' => let '(obs, q') := queue_step o q in obs :: queue_run ops' q'
  end.

(** The states reached after a sequence of operations. *)
Definition rx_exec (ops : list RingOp) (w : World) : World :=
  foldl (λ w o, snd (rx_step o w)) w ops.

Definition queue_exec (ops : list RingOp) (q : list Z) : list Z :=
  foldl (λ q o, snd (queue_step o q)) q ops.

(** No push finds [UART_BUFFER_SIZE - 1] bytes already pending. *)
Fixpoint within_capacity (ops : list RingOp) (q : list Z) : bool :=
  match ops with
  | [] => true
  | o :: ops' =>
      match o with
      | Push _ => Z.of_nat (length q) <? UART_BUFFER_SIZE - 1
      | Pop => true
      end && within_capacity ops' (snd (queue_step o q))
  end.

(** *** Incoming bytes *)

(** [incoming timeout_ms w bs w']: from [w], the foreground obtains the
    bytes [bs] one after the other, each by a successful [WaitForData]
    followed by [UART_ReadChar], and is left in [w']. *)
Inductive incoming (timeout_ms : Z) : World → list Z → World → Prop :=
  | incoming_nil w : incoming timeout_ms w [] w
  | incoming_cons fuel w w1 c w2 bs w' :
      WaitForData fuel timeout_ms w = Some (UART_SUCCESS, w1) →
      UART_ReadChar (Some 0) w1 = (UART_SUCCESS, Some c, w2) →
      incoming timeout_ms w2 bs w' →
      incoming timeout_ms w (c :: bs) w'.

(** *** The streaming matcher over a byte sequence *)

(** The match is reported on the step that advances [match_pos] to the
    length of the pattern. *)
Definition reported (str : list Z) (match_pos c : Z) : bool :=
  (c =? str_at str match_pos) && (sz (match_pos + 1) =? strlen str).

Fixpoint match_run (str : list Z) (match_pos : Z) (bs : list Z) : Z :=
  match bs with
  | [] => match_pos
  | c :: bs' => match_run str (match_step str match_pos c) bs'
  end.

(** Number of bytes fed when the match is first reported, if it is. *)
Fixpoint first_report (str : list Z) (match_pos : Z) (bs : list Z) : option nat :=
  match bs with
  | [] => None
  | c :: bs' =>
      if reported str match_pos c then Some 1%nat
      else S <$> first_report str (match_step str match_pos c) bs'
  end.

(** The world [UART_WaitForString] goes on with after a byte has left
    the matcher at [match_pos]. *)
Definition settle (match_pos : Z) (w : World) : World :=
  if 0 <? match_pos then ResetTimeout w else w.

(** Writing [bs] into the destination from index [pos] on. *)
Fixpoint store_bytes (dest : list Z) (pos : nat) (bs : list Z) : list Z :=
  match bs with
  | [] => dest
  | c :: bs' => store_bytes (<[pos := c]> dest) (S pos) bs'
  end.

(** *** Literal substring search *)

Definition occurs_at (pat s : list Z) (i : nat) : Prop :=
  take (length pat) (drop i s) = pat.

#[global] Instance occurs_at_dec pat s i : Decision (occurs_at pat s i).
Proof. unfold occurs_at. apply _. Defined.

Definition absent (pat s : list Z) : Prop := ∀ i, ¬ occurs_at pat s i.

Definition first_at (pat s : list Z) (i : nat) : Prop :=
  occurs_at pat s i ∧ ∀ j, (j < i)%nat → ¬ occurs_at pat s j.

(** *** True elapsed time against the 32-bit counter *)

(** How many times the 32-bit counter has wrapped between the instants
    [s] and [t] (in milliseconds since boot). *)
Definition wraps (s t : Z) : Z := t / 2 ^ 32 - s / 2 ^ 32.

(** *** A schedule that trickles one byte every [gap] milliseconds *)

Fixpoint trickle (n : nat) (gap : nat) (c : Z) : list Event :=
  match n with
  | O => []
  | S k => replicate gap SysTick ++ Usart (Some c) false :: trickle k gap c
  end.

(** *** Worlds used in the examples *)

Definition world0 : World :=
  snd (UART_RingBuff_Init
         (mkWorld (mkRingBuffer [] 0 0) (mkRingBuffer [] 0 0) 0 0
                  false false false [] [])).

(** The world after the interrupt handler has received [bs]. *)
Definition received (bs : list Z) (w : World) : World :=
  foldl (λ w c, UART_ISR_Handler true (Some c) false w) w bs.

(** A full and an empty ring buffer. *)
Definition rb_full : RingBuffer_TypeDef :=
  mkRingBuffer (replicate (Z.to_nat UART_BUFFER_SIZE) 65) 1023 0.

(** The instants used against the timeout: armed just before the counter
    wraps, armed at boot, and read one full period and five milliseconds
    after boot. *)
Definition world_before_wrap : World := set_ticks (2 ^ 32 - 3) world0.
Definition world_after_wrap : World :=
  set_ticks (2 ^ 32 + 4) (ResetTimeout world_before_wrap).
Definition world_next_period : World :=
  set_ticks (2 ^ 32 + 5) (ResetTimeout world0).

(** A world whose TX buffer has room for one more byte, with nothing
    scheduled to drain it. *)
Definition world_tx_nearly_full : World :=
  set_tx_buffer (mkRingBuffer (replicate (Z.to_nat UART_BUFFER_SIZE) 0) 1022 0)
    world0.

(** A world whose TX buffer is full, with TXEIE set and the TXE interrupt
    due in 3 ms. *)
Definition world_tx_full : World :=
  set_cr1_txeie true
    (set_schedule (replicate 3 SysTick ++ [Usart None true])
       (set_tx_buffer rb_full world0)).

Definition OK_CRLF : list Z := [79; 75; 13; 10].          (* "OK\r\n" *)
Definition CRLF : list Z := [13; 10].                      (* "\r\n" *)
Definition hello_CRLF : list Z := [104; 101; 108; 108; 111; 13; 10].
Definition tag_a : list Z := [60; 97; 62].                 (* "<a>" *)
Definition tag_a_end : list Z := [60; 47; 97; 62].         (* "</a>" *)
Definition x_a_42_a_y : list Z :=                          (* "x<a>42</a>y" *)
  [120; 60; 97; 62; 52; 50; 60; 47; 97; 62; 121].

(** *** Both ring buffers, and the TX side *)

Definition world_wf (w : World) : Prop :=
  rb_wf (rx_buffer w) ∧ rb_wf (tx_buffer w).

(** [n] USART interrupts that find TXE set and RXNE clear. *)
Fixpoint tx_interrupts (n : nat) (w : World) : World :=
  match n with
  | O => w
  | S k => tx_interrupts k (UART_ISR_Handler true None true w)
  end.

(** * Proofs *)

(** ** Arithmetic of the fixed-width conversions *)

Ltac unfold_ints :=
  unfold u8, u16, u32, sz, SIZE_MAX, UART_BUFFER_SIZE in *;
  change (2 ^ 8) with 256 in *;
  change (2 ^ 16) with 65536 in *;
  change (2 ^ 32) with 4294967296 in *.

Ltac euclid := unfold_ints; Z.to_euclidean_division_equations; lia.

Lemma u16_small x : 0 ≤ x < 2 ^ 16 → u16 x = x.
Proof. intros H. unfold u16. apply Z.mod_small. lia. Qed.

Lemma u32_small x : 0 ≤ x < 2 ^ 32 → u32 x = x.
Proof. intros H. unfold u32. apply Z.mod_small. lia. Qed.

Lemma sz_small x : 0 ≤ x ≤ SIZE_MAX → sz x = x.
Proof. intros H. unfold sz. apply Z.mod_small. unfold SIZE_MAX in H. lia. Qed.

Lemma next_index x :
  0 ≤ x < 2 ^ 16 →
  u16 (Z.rem (x + 1) UART_BUFFER_SIZE) = (x + 1) mod UART_BUFFER_SIZE.
Proof. intros H. euclid. Qed.

Lemma next_index_range x :
  0 ≤ (x + 1) mod UART_BUFFER_SIZE < UART_BUFFER_SIZE.
Proof. apply Z.mod_pos_bound. reflexivity. Qed.

Lemma available_mod h t :
  0 ≤ h < UART_BUFFER_SIZE → 0 ≤ t < UART_BUFFER_SIZE →
  u16 (Z.rem (UART_BUFFER_SIZE + h - t) UART_BUFFER_SIZE)
  = (UART_BUFFER_SIZE + h - t) mod UART_BUFFER_SIZE.
Proof. intros Hh Ht. euclid. Qed.

Lemma pending_mod h t :
  (UART_BUFFER_SIZE + h - t) mod UART_BUFFER_SIZE
  = (h - t) mod UART_BUFFER_SIZE.
Proof. euclid. Qed.

(** ** The ring buffer *)

Lemma rb_read_length buf pos n : length (rb_read buf pos n) = n.
Proof. revert pos. induction n as [|n IH]; intros pos; simpl; [done|]. by rewrite IH. Qed.

Lemma rb_contents_length b : length (rb_contents b) = rb_pending b.
Proof. apply rb_read_length. Qed.

Lemma rb_read_snoc buf pos n :
  0 ≤ pos < UART_BUFFER_SIZE →
  rb_read buf pos (S n)
  = rb_read buf pos n
      ++ [default 0 (buf !! Z.to_nat ((pos + Z.of_nat n) mod UART_BUFFER_SIZE))].
Proof.
  revert pos. induction n as [|n IH]; intros pos Hpos.
  - simpl. rewrite Z.add_0_r, Z.mod_small by done. done.
  - change (rb_read buf pos (S (S n)))
      with (default 0 (buf !! Z.to_nat pos)
              :: rb_read buf ((pos + 1) mod UART_BUFFER_SIZE) (S n)).
    rewrite IH by apply next_index_range.
    change (rb_read buf pos (S n))
      with (default 0 (buf !! Z.to_nat pos)
              :: rb_read buf ((pos + 1) mod UART_BUFFER_SIZE) n).
    rewrite <- app_comm_cons. do 5 f_equal.
    rewrite Z.add_mod_idemp_l by done. do 2 f_equal. lia.
Qed.

Lemma rb_read_insert buf pos n h c :
  0 ≤ h → 0 ≤ pos < UART_BUFFER_SIZE →
  (∀ i, 0 ≤ i < Z.of_nat n → (pos + i) mod UART_BUFFER_SIZE ≠ h) →
  rb_read (<[Z.to_nat h := c]> buf) pos n = rb_read buf pos n.
Proof.
  intros Hh. revert pos. induction n as [|n IH]; intros pos Hpos Hfree; [done|].
  simpl. f_equal.
  - rewrite list_lookup_insert_ne; [done|].
    specialize (Hfree 0). rewrite Z.add_0_r, Z.mod_small in Hfree by done.
    intros Heq. apply Hfree; lia.
  - apply IH; [apply next_index_range|].
    intros i Hi. rewrite Z.add_mod_idemp_l by done.
    replace (pos + 1 + i) with (pos + (i + 1)) by lia. apply Hfree. lia.
Qed.

Lemma rb_pending_lt b : rb_wf b → (Z.of_nat (rb_pending b) < UART_BUFFER_SIZE).
Proof. intros _. unfold rb_pending. euclid. Qed.

Lemma rb_pending_0 b : rb_wf b → (rb_pending b = 0%nat ↔ head b = tail b).
Proof. intros (_ & Hh & Ht). unfold rb_pending. split; intros H; euclid. Qed.

(** [UART_Available()] is [(N + head - tail) mod N], the number of bytes
    between [tail] and [head]. *)
Lemma UART_Available_wf w :
  rb_wf (rx_buffer w) →
  UART_Available w
  = (UART_BUFFER_SIZE + head (rx_buffer w) - tail (rx_buffer w)) mod UART_BUFFER_SIZE
  ∧ UART_Available w = Z.of_nat (length (rb_contents (rx_buffer w))).
Proof.
  intros (_ & Hh & Ht). unfold UART_Available.
  rewrite available_mod by done. split; [done|].
  rewrite rb_contents_length. unfold rb_pending.
  rewrite pending_mod, Z2Nat.id; [done|]. apply Z.mod_pos_bound. reflexivity.
Qed.

(** A push that finds room appends the byte to the unread bytes. *)
Lemma StoreChar_room c b :
  rb_wf b → (Z.of_nat (length (rb_contents b)) < UART_BUFFER_SIZE - 1) →
  ∃ b', StoreChar c b = (UART_SUCCESS, b') ∧ rb_wf b' ∧
        rb_contents b' = rb_contents b ++ [c].
Proof.
  intros (Hlen & Hh & Ht) Hroom. rewrite rb_contents_length in Hroom.
  unfold StoreChar. rewrite next_index by (unfold_ints; lia).
  assert (Hne : (head b + 1) mod UART_BUFFER_SIZE ≠ tail b).
  { unfold rb_pending in Hroom. euclid. }
  apply Z.eqb_neq in Hne. rewrite Hne. eexists. split; [done|]. split.
  - split; [|split]; simpl; [by rewrite length_insert | apply next_index_range | done].
  - unfold rb_contents. simpl.
    assert (Hp : rb_pending
                   {| buffer := <[Z.to_nat (head b):=c]> (buffer b);
                      head := (head b + 1) mod UART_BUFFER_SIZE;
                      tail := tail b |} = S (rb_pending b)).
    { unfold rb_pending in *. simpl. euclid. }
    rewrite Hp, rb_read_snoc by done.
    assert (Hslot : (tail b + Z.of_nat (rb_pending b)) mod UART_BUFFER_SIZE = head b).
    { unfold rb_pending. euclid. }
    rewrite Hslot, list_lookup_insert_eq by (rewrite Hlen; unfold_ints; lia).
    simpl. f_equal. apply rb_read_insert; [lia|done|].
    intros i Hi. unfold rb_pending in Hi. euclid.
Qed.

(** A pop from a buffer holding [x :: q] reads [x] and leaves [q]. *)
Lemma UART_ReadChar_cons v w x q :
  rb_wf (rx_buffer w) → rb_contents (rx_buffer w) = x :: q →
  ∃ w', UART_ReadChar (Some v) w = (UART_SUCCESS, Some x, w') ∧
        rb_wf (rx_buffer w') ∧ rb_contents (rx_buffer w') = q ∧
        w' = set_rx_buffer (rx_buffer w') w ∧
        buffer (rx_buffer w') = buffer (rx_buffer w) ∧
        head (rx_buffer w') = head (rx_buffer w).
Proof.
  intros Hwf Hq. pose proof Hwf as (Hlen & Hh & Ht).
  assert (Hp : rb_pending (rx_buffer w) = S (length q)).
  { rewrite <- rb_contents_length, Hq. done. }
  unfold UART_ReadChar.
  assert (Hne : head (rx_buffer w) ≠ tail (rx_buffer w)).
  { intros He. apply rb_pending_0 in He; [|done]. lia. }
  apply Z.eqb_neq in Hne. rewrite Hne.
  rewrite next_index by (unfold_ints; lia).
  unfold rb_contents in Hq. rewrite Hp in Hq. simpl in Hq.
  injection Hq as Hx Hq. rewrite Hx.
  eexists. split; [done|]. simpl. split; [|split; [|done]].
  - split; [|split]; simpl; [done | done | apply next_index_range].
  - unfold rb_contents. simpl.
    assert (Hp' : rb_pending
                   {| buffer := buffer (rx_buffer w); head := head (rx_buffer w);
                      tail := (tail (rx_buffer w) + 1) mod UART_BUFFER_SIZE |}
                  = length q).
    { unfold rb_pending in *. simpl. euclid. }
    by rewrite Hp'.
Qed.

Lemma UART_ReadChar_nil v w :
  rb_wf (rx_buffer w) → rb_contents (rx_buffer w) = [] →
  UART_ReadChar (Some v) w = (UART_ERROR_BUFFER_EMPTY, Some v, w).
Proof.
  intros Hwf Hq. unfold UART_ReadChar.
  assert (He : head (rx_buffer w) = tail (rx_buffer w)).
  { apply rb_pending_0; [done|]. by rewrite <- rb_contents_length, Hq. }
  apply Z.eqb_eq in He. by rewrite He.
Qed.

Lemma set_rx_buffer_rx b w : rx_buffer (set_rx_buffer b w) = b.
Proof. done. Qed.

(** One operation on the RX buffer does what it does on the queue. *)
Lemma rx_step_queue_step o w q :
  rb_wf (rx_buffer w) → rb_contents (rx_buffer w) = q →
  within_capacity [o] q = true →
  fst (rx_step o w) = fst (queue_step o q) ∧
  rb_wf (rx_buffer (snd (rx_step o w))) ∧
  rb_contents (rx_buffer (snd (rx_step o w))) = snd (queue_step o q).
Proof.
  intros Hwf Hq Hcap. destruct o as [c|]; unfold rx_step, queue_step.
  - simpl in Hcap. rewrite andb_true_r in Hcap. apply Z.ltb_lt in Hcap.
    destruct (StoreChar_room c (rx_buffer w)) as (b' & Hst & Hwf' & Hq');
      [done | by rewrite Hq |].
    rewrite Hst. simpl. rewrite Hq' , Hq. split; [|done].
    destruct (UART_Available_wf (set_rx_buffer b' w)) as [_ Hav]; [done|].
    rewrite Hav. simpl. by rewrite Hq', Hq.
  - destruct q as [|x q'].
    + rewrite UART_ReadChar_nil by done. simpl.
      destruct (UART_Available_wf w) as [_ Hav]; [done|].
      by rewrite Hav, Hq.
    + destruct (UART_ReadChar_cons 0 w x q') as (w' & Hrd & Hwf' & Hq' & _);
        [done..|].
      rewrite Hrd. simpl.
      destruct (UART_Available_wf w') as [_ Hav]; [done|].
      by rewrite Hav, Hq'.
Qed.

Lemma rx_run_queue_run ops : ∀ w q,
  rb_wf (rx_buffer w) → rb_contents (rx_buffer w) = q →
  within_capacity ops q = true →
  rx_run ops w = queue_run ops q.
Proof.
  induction ops as [|o ops IH]; intros w q Hwf Hq Hcap; [done|].
  simpl in Hcap. apply andb_true_iff in Hcap as [Ho Hrest].
  destruct (rx_step_queue_step o w q) as (Hobs & Hwf' & Hq'); [done..| |].
  { simpl. by rewrite Ho. }
  simpl. destruct (rx_step o w) as [obs w'], (queue_step o q) as [obs' q'].
  simpl in *. subst obs'. f_equal. by apply IH.
Qed.

Lemma rx_exec_queue_exec ops : ∀ w q,
  rb_wf (rx_buffer w) → rb_contents (rx_buffer w) = q →
  within_capacity ops q = true →
  rb_wf (rx_buffer (rx_exec ops w)) ∧
  rb_contents (rx_buffer (rx_exec ops w)) = queue_exec ops q.
Proof.
  induction ops as [|o ops IH]; intros w q Hwf Hq Hcap; [done|].
  simpl in Hcap. apply andb_true_iff in Hcap as [Ho Hrest].
  destruct (rx_step_queue_step o w q) as (_ & Hwf' & Hq'); [done..| |].
  { simpl. by rewrite Ho. }
  simpl. by apply IH.
Qed.

Lemma within_capacity_take ops : ∀ q k,
  within_capacity ops q = true → within_capacity (take k ops) q = true.
Proof.
  induction ops as [|o ops IH]; intros q k Hcap; [by destruct k|].
  destruct k as [|k]; [done|]. simpl in *.
  apply andb_true_iff in Hcap as [Ho Hrest]. rewrite Ho. simpl. by apply IH.
Qed.

(** C1. For every sequence of pushes and pops on the RX buffer in which no
    push finds [UART_BUFFER_SIZE - 1] bytes pending, the pops return the
    bytes in the order they were pushed: the results are those of a FIFO
    queue.  After every prefix of the sequence, [UART_Available()] is
    [(N + head - tail) mod N] and is the number of bytes pushed and not
    yet popped. *)
Theorem C1_fifo_and_available (ops : list RingOp) (w : World) (q : list Z) :
  rb_wf (rx_buffer w) → rb_contents (rx_buffer w) = q →
  within_capacity ops q = true →
  rx_run ops w = queue_run ops q ∧
  ∀ k, let wk := rx_exec (take k ops) w in
       let qk := queue_exec (take k ops) q in
       rb_contents (rx_buffer wk) = qk ∧
       UART_Available wk
       = (UART_BUFFER_SIZE + head (rx_buffer wk) - tail (rx_buffer wk))
           mod UART_BUFFER_SIZE ∧
       UART_Available wk = Z.of_nat (length qk).
Proof.
  intros Hwf Hq Hcap. split; [by apply rx_run_queue_run|].
  intros k wk qk.
  destruct (rx_exec_queue_exec (take k ops) w q) as [Hwfk Hqk];
    [done | done | by apply within_capacity_take |].
  destruct (UART_Available_wf wk) as [Hav Hlen]; [done|].
  fold wk in Hqk. fold qk in Hqk. by rewrite <- Hqk.
Qed.

Lemma C1_fifo_and_available_witness :
  let ops := [Push 1; Push 2; Pop; Pop; Pop; Push 3; Pop] in
  rx_run ops world0 = queue_run ops [] ∧
  ∀ k, let wk := rx_exec (take k ops) world0 in
       let qk := queue_exec (take k ops) [] in
       rb_contents (rx_buffer wk) = qk ∧
       UART_Available wk
       = (UART_BUFFER_SIZE + head (rx_buffer wk) - tail (rx_buffer wk))
           mod UART_BUFFER_SIZE ∧
       UART_Available wk = Z.of_nat (length qk).
Proof.
  apply (C1_fifo_and_available [Push 1; Push 2; Pop; Pop; Pop; Push 3; Pop]
           world0 []).
  - split; [reflexivity | split; vm_compute; split; congruence].
  - reflexivity.
  - reflexivity.
Defined.

(** ** Full and empty buffers *)

Lemma set_rx_buffer_same w : set_rx_buffer (rx_buffer w) w = w.
Proof. by destruct w. Qed.

(** C7. A push onto a full buffer ([(head + 1) mod N = tail]) fails with
    [UART_ERROR_BUFFER_FULL] and changes nothing, also when the interrupt
    handler does it; a pop or a peek on an empty buffer ([head = tail])
    fails with [UART_ERROR_BUFFER_EMPTY] and changes nothing. *)
Theorem C7_full_and_empty_leave_state (b : RingBuffer_TypeDef) (w : World) (c v : Z) :
  (0 ≤ head b < 2 ^ 16 → (head b + 1) mod UART_BUFFER_SIZE = tail b →
   StoreChar c b = (UART_ERROR_BUFFER_FULL, b) ∧
   (rx_buffer w = b →
    UART_ISR_Handler true (Some c) false w = w ∧
    snd (rx_step (Push c) w) = w)) ∧
  (head (rx_buffer w) = tail (rx_buffer w) →
   UART_ReadChar (Some v) w = (UART_ERROR_BUFFER_EMPTY, Some v, w) ∧
   UART_Peek (Some v) w = (UART_ERROR_BUFFER_EMPTY, Some v, w)).
Proof.
  split.
  - intros Hh Hfull.
    assert (Hst : ∀ c', StoreChar c' b = (UART_ERROR_BUFFER_FULL, b)).
    { intros c'. unfold StoreChar. rewrite next_index by done.
      apply Z.eqb_eq in Hfull. by rewrite Hfull. }
    split; [apply Hst|]. intros Hb. split.
    + unfold UART_ISR_Handler. simpl. rewrite Hb, Hst. simpl.
      rewrite <- Hb, set_rx_buffer_same. by destruct (cr1_rxneie w).
    + unfold rx_step. rewrite Hb, Hst. simpl. by rewrite <- Hb, set_rx_buffer_same.
  - intros Hempty. apply Z.eqb_eq in Hempty.
    unfold UART_ReadChar, UART_Peek. by rewrite Hempty.
Qed.

Lemma C7_full_and_empty_leave_state_witness :
  let w := set_rx_buffer rb_full world0 in
  (StoreChar 66 rb_full = (UART_ERROR_BUFFER_FULL, rb_full) ∧
   UART_ISR_Handler true (Some 66) false w = w ∧
   snd (rx_step (Push 66) w) = w) ∧
  UART_ReadChar (Some 7) world0 = (UART_ERROR_BUFFER_EMPTY, Some 7, world0) ∧
  UART_Peek (Some 7) world0 = (UART_ERROR_BUFFER_EMPTY, Some 7, world0).
Proof.
  intros w. split.
  - destruct (C7_full_and_empty_leave_state rb_full w 66 7) as [Hfull _].
    destruct Hfull as [Hst Hw]; [vm_compute; split; congruence | reflexivity |].
    split; [exact Hst | apply Hw; reflexivity].
  - apply (C7_full_and_empty_leave_state rb_full world0 66 7). reflexivity.
Defined.

(** ** The timeout *)

(** C9 (as amended). When fewer than [2 ^ 32] milliseconds have elapsed
    since [ResetTimeout()] (the counter may have wrapped once in between,
    but has not come round to its start value again), the test
    [IsTimeOutExpired(d)] computed on the 32-bit difference is the
    comparison of the true elapsed time with [d]. *)
Theorem C9_expiry_within_one_period (w1 w2 : World) (d : Z) :
  timeout_start w2 = timeout_start (ResetTimeout w1) →
  0 ≤ ticks w2 - ticks w1 < 2 ^ 32 →
  IsTimeOutExpired d w2 = (d <=? ticks w2 - ticks w1).
Proof.
  intros Hstart Hel. unfold IsTimeOutExpired. rewrite Hstart. simpl.
  unfold HAL_GetTick. f_equal. euclid.
Qed.

Lemma C9_expiry_within_one_period_witness :
  wraps (ticks world_before_wrap) (ticks world_after_wrap) = 1 ∧
  IsTimeOutExpired 7 world_after_wrap = true ∧
  IsTimeOutExpired 8 world_after_wrap = false.
Proof.
  split; [reflexivity|]. split.
  - rewrite (C9_expiry_within_one_period world_before_wrap world_after_wrap 7);
      [reflexivity | reflexivity | vm_compute; split; congruence].
  - rewrite (C9_expiry_within_one_period world_before_wrap world_after_wrap 8);
      [reflexivity | reflexivity | vm_compute; split; congruence].
Defined.

(** C9, as first stated, fails: one wrap of the counter leaves room
    for a full period to elapse.  Armed at boot and read [2 ^ 32 + 5] ms
    later, the counter has wrapped once, 10 ms have long elapsed, and the
    test says the timeout has not expired. *)
Lemma C9_one_wrap_counterexample :
  timeout_start world_next_period = timeout_start (ResetTimeout world0) ∧
  ticks world0 ≤ ticks world_next_period ∧
  wraps (ticks world0) (ticks world_next_period) = 1 ∧
  IsTimeOutExpired 10 world_next_period = false ∧
  (10 <=? ticks world_next_period - ticks world0) = true.
Proof. vm_compute. repeat split; congruence. Qed.

(** ** Memory blocks and the literal search *)

Lemma memcmp_0_iff a b n :
  (n ≤ length a)%nat → (n ≤ length b)%nat →
  memcmp a b n = 0 ↔ take n a = take n b.
Proof.
  revert a b. induction n as [|n IH]; intros a b Ha Hb; [done|].
  destruct a as [|x a]; [simpl in Ha; lia|].
  destruct b as [|y b]; [simpl in Hb; lia|].
  simpl in *. destruct (Z.eqb_spec x y) as [->|Hne].
  - rewrite IH by lia. split; [by intros -> | by intros [= ->]].
  - split; [lia | by intros [= ? ?]].
Qed.

Lemma memcpy_take_drop dest src n :
  (n ≤ length dest)%nat → (n ≤ length src)%nat →
  memcpy dest src n = take n src ++ drop n dest.
Proof.
  revert dest src. induction n as [|n IH]; intros dest src Hd Hs.
  - by destruct dest.
  - destruct dest as [|y dest]; [simpl in Hd; lia|].
    destruct src as [|x src]; [simpl in Hs; lia|].
    simpl in *. rewrite IH by lia. done.
Qed.

Lemma occurs_at_bound pat s i :
  pat ≠ [] → occurs_at pat s i → (i + length pat ≤ length s)%nat.
Proof.
  intros Hne Hocc. unfold occurs_at in Hocc.
  apply (f_equal length) in Hocc. rewrite length_take, length_drop in Hocc.
  destruct pat; [done|]. cbn [length] in *. lia.
Qed.

Lemma str_length_pos (str : list Z) : str ≠ [] → (0 < length str)%nat.
Proof. destruct str; [done|]. simpl. lia. Qed.

Section FindString.
Variables str buf : list Z.
Hypothesis str_nonempty : str ≠ [].
Hypothesis buf_fits : strlen buf ≤ SIZE_MAX.
Hypothesis str_shorter : (length str ≤ length buf)%nat.

Lemma memcmp_at i :
  (i + length str ≤ length buf)%nat →
  (memcmp (drop (Z.to_nat (Z.of_nat i)) buf) str (Z.to_nat (strlen str)) =? 0)
  = bool_decide (occurs_at str buf i).
Proof.
  intros Hi. unfold strlen. rewrite !Nat2Z.id.
  pose proof (memcmp_0_iff (drop i buf) str (length str)) as Hiff.
  rewrite length_drop, firstn_all in Hiff.
  destruct (Z.eqb_spec (memcmp (drop i buf) str (length str)) 0) as [H0|H0];
    symmetry.
  - apply bool_decide_eq_true. apply Hiff; [lia | done | done].
  - apply bool_decide_eq_false. intros Hocc. apply H0, Hiff; [lia | done | done].
Qed.

Lemma FindStringInBuffer_loop_found n : ∀ i k,
  (i ≤ k)%nat → (k < i + n)%nat →
  (i + n ≤ length buf - length str + 1)%nat →
  occurs_at str buf k →
  (∀ j, (i ≤ j)%nat → (j < k)%nat → ¬ occurs_at str buf j) →
  FindStringInBuffer_loop n (Z.of_nat i) str buf (strlen str) = Z.of_nat k.
Proof.
  induction n as [|n IH]; intros i k Hik Hkn Hbound Hocc Hfirst; [lia|].
  simpl. rewrite memcmp_at by lia.
  destruct (decide (i = k)) as [->|Hne].
  - by rewrite bool_decide_eq_true_2.
  - rewrite bool_decide_eq_false_2 by (apply Hfirst; lia).
    replace (sz (Z.of_nat i + 1)) with (Z.of_nat (S i)).
    + apply IH; [lia..|done|]. intros j Hj1 Hj2. apply Hfirst; lia.
    + pose proof (str_length_pos str str_nonempty).
      rewrite sz_small; [lia|]. unfold strlen in buf_fits. lia.
Qed.

Lemma FindStringInBuffer_loop_absent n : ∀ i,
  (i + n ≤ length buf - length str + 1)%nat →
  (∀ j, (i ≤ j)%nat → ¬ occurs_at str buf j) →
  FindStringInBuffer_loop n (Z.of_nat i) str buf (strlen str) = SIZE_MAX.
Proof.
  induction n as [|n IH]; intros i Hbound Habs; [done|].
  simpl. rewrite memcmp_at by lia.
  rewrite bool_decide_eq_false_2 by (apply Habs; lia).
  replace (sz (Z.of_nat i + 1)) with (Z.of_nat (S i)).
  - apply IH; [lia|]. intros j Hj. apply Habs; lia.
  - pose proof (str_length_pos str str_nonempty).
    rewrite sz_small; [lia|]. unfold strlen in buf_fits. lia.
Qed.
End FindString.

Lemma FindStringInBuffer_first str buf k :
  str ≠ [] → strlen buf ≤ SIZE_MAX → first_at str buf k →
  FindStringInBuffer (Some str) (Some buf) (strlen buf) = Z.of_nat k.
Proof.
  intros Hne Hfit [Hocc Hfirst].
  pose proof (occurs_at_bound _ _ _ Hne Hocc) as Hk.
  unfold FindStringInBuffer.
  assert (Hlen : 0 < strlen str ≤ strlen buf).
  { unfold strlen. destruct str; [done|]. simpl in *. lia. }
  destruct (Z.eqb_spec (strlen str) 0) as [?|_]; [lia|].
  destruct (Z.ltb_spec (strlen buf) (strlen str)) as [?|_]; [lia|]. simpl.
  rewrite sz_small by lia.
  apply (FindStringInBuffer_loop_found str buf Hne Hfit ltac:(lia) _ 0%nat k);
    unfold strlen in *; try lia; [done|].
  intros j _ Hj. by apply Hfirst.
Qed.

Lemma FindStringInBuffer_absent str buf :
  strlen buf ≤ SIZE_MAX → absent str buf ∨ str = [] →
  FindStringInBuffer (Some str) (Some buf) (strlen buf) = SIZE_MAX.
Proof.
  intros Hfit Habs. unfold FindStringInBuffer.
  destruct (Z.eqb_spec (strlen str) 0) as [?|Hne]; [done|].
  destruct (Z.ltb_spec (strlen buf) (strlen str)) as [?|Hle]; [done|]. simpl.
  destruct Habs as [Habs| ->]; [|done].
  rewrite sz_small by (unfold strlen in *; lia).
  assert (Hstr : str ≠ []) by (by intros ->).
  apply (FindStringInBuffer_loop_absent str buf Hstr Hfit
           ltac:(unfold strlen in *; lia) _ 0%nat);
    unfold strlen in *; [lia|]. intros j _. apply Habs.
Qed.

(** ** [UART_ExtractBetween] *)

(** C5. For every source string and non-empty delimiters,
    [UART_ExtractBetween] searches the source for the start pattern and
    fails with [UART_ERROR_NOT_FOUND] when it is absent; it then searches
    for the end pattern after the end of the start match and fails with
    [UART_ERROR_NOT_FOUND] when it is absent there; otherwise it succeeds,
    and the destination holds the bytes strictly between the two matches,
    cut to [dest_size - 1] bytes, followed by a NUL. *)
Theorem C5_extract_between (start end_s src d : list Z) (dest_size : Z) :
  start ≠ [] → end_s ≠ [] → strlen src ≤ SIZE_MAX →
  0 < dest_size ≤ Z.of_nat (length d) → dest_size ≤ SIZE_MAX →
  let call :=
    UART_ExtractBetween (Some start) (Some end_s) (Some src) (Some d) dest_size in
  (absent start src → call = (UART_ERROR_NOT_FOUND, Some d)) ∧
  (∀ i, first_at start src i →
     let rest := drop (i + length start) src in
     (absent end_s rest → call = (UART_ERROR_NOT_FOUND, Some d)) ∧
     (∀ j, first_at end_s rest j →
        let between := take j rest in
        let n := (j `min` Z.to_nat (dest_size - 1))%nat in
        call = (UART_SUCCESS, Some (take n between ++ 0 :: drop (S n) d)))).
Proof.
  intros Hs He Hfit Hsize Hmax call. subst call. unfold UART_ExtractBetween.
  destruct (Z.eqb_spec dest_size 0) as [?|_]; [lia|]. split.
  - intros Habs. rewrite FindStringInBuffer_absent by auto. done.
  - intros i Hi. set (rest := drop (i + length start) src). rewrite (FindStringInBuffer_first start src i) by done.
    pose proof (occurs_at_bound _ _ _ Hs (proj1 Hi)) as Hbound.
    assert (Hpos : (0 < length start)%nat) by (by apply str_length_pos).
    unfold strlen in Hfit.
    destruct (Z.eqb_spec (Z.of_nat i) SIZE_MAX) as [?|_]; [lia|].
    assert (Hsp : sz (Z.of_nat i + strlen start) = Z.of_nat (i + length start)).
    { unfold strlen. rewrite sz_small; lia. }
    rewrite Hsp, Nat2Z.id. fold rest.
    assert (Hrl : sz (strlen src - Z.of_nat (i + length start)) = strlen rest).
    { unfold strlen, rest. rewrite length_drop, sz_small; lia. }
    rewrite Hrl.
    assert (Hrfit : strlen rest ≤ SIZE_MAX).
    { unfold strlen, rest. rewrite length_drop. lia. }
    split.
    + intros Habs. rewrite FindStringInBuffer_absent by auto. done.
    + intros j Hj. set (n := (j `min` Z.to_nat (dest_size - 1))%nat).
      rewrite (FindStringInBuffer_first end_s rest j) by done.
      pose proof (occurs_at_bound _ _ _ He (proj1 Hj)) as Hjb.
      assert (Hepos : (0 < length end_s)%nat) by (by apply str_length_pos).
      unfold strlen in Hrfit.
      destruct (Z.eqb_spec (Z.of_nat j) SIZE_MAX) as [?|_]; [lia|].
      assert (Hrlen : (length rest = length src - (i + length start))%nat).
      { unfold rest. by rewrite length_drop. }
      assert (Hcl : sz (sz (Z.of_nat j + Z.of_nat (i + length start))
                        - Z.of_nat (i + length start)) = Z.of_nat j).
      { rewrite (sz_small (_ + _)) by lia. rewrite sz_small; lia. }
      rewrite Hcl.
      assert (Hn : Z.to_nat (if dest_size <=? Z.of_nat j
                             then sz (dest_size - 1) else Z.of_nat j) = n).
      { subst n. destruct (Z.leb_spec dest_size (Z.of_nat j)).
        - rewrite sz_small by lia. lia.
        - lia. }
      rewrite Hn.
      assert (Hnd : (n < length d)%nat) by lia.
      assert (Hnj : (n ≤ j)%nat) by lia.
      rewrite memcpy_take_drop by lia.
      do 2 f_equal. rewrite take_take, Nat.min_l by done.
      assert (Hnt : n = length (take n rest)) by (rewrite length_take; lia).
      rewrite Hnt at 1. rewrite insert_app_r_alt, Nat.sub_diag by lia.
      f_equal. destruct (drop n d) as [|y tl] eqn:Hd.
      * apply (f_equal length) in Hd. rewrite length_drop in Hd. simpl in Hd. lia.
      * simpl. f_equal.
        replace (S n) with (n + 1)%nat by lia. rewrite <- drop_drop, Hd. done.
Qed.

Lemma first_at_tag_a : first_at tag_a x_a_42_a_y 1.
Proof.
  split; [reflexivity|]. intros j Hj. assert (j = 0%nat) as -> by lia.
  vm_compute. congruence.
Defined.

Lemma first_at_tag_a_end :
  first_at tag_a_end (drop (1 + length tag_a) x_a_42_a_y) 2.
Proof.
  split; [reflexivity|]. intros j Hj.
  destruct j as [|[|j]]; [vm_compute; congruence..|lia].
Defined.

Lemma absent_tag_a : absent tag_a (drop 4 x_a_42_a_y).
Proof.
  intros i Hocc.
  assert (Hi : (i + 3 ≤ 7)%nat).
  { apply (occurs_at_bound tag_a (drop 4 x_a_42_a_y) i); [done|exact Hocc]. }
  do 5 (destruct i as [|i]; [vm_compute in Hocc; congruence|]). simpl in Hi. lia.
Defined.

Lemma C5_extract_between_witness :
  UART_ExtractBetween (Some tag_a) (Some tag_a_end) (Some x_a_42_a_y)
    (Some (replicate 8 255)) 8
  = (UART_SUCCESS, Some [52; 50; 0; 255; 255; 255; 255; 255]) ∧
  UART_ExtractBetween (Some tag_a) (Some tag_a_end) (Some (drop 4 x_a_42_a_y))
    (Some (replicate 8 255)) 8
  = (UART_ERROR_NOT_FOUND, Some (replicate 8 255)).
Proof.
  split.
  - destruct (C5_extract_between tag_a tag_a_end x_a_42_a_y (replicate 8 255) 8)
      as [_ Hfound]; [done | done | vm_compute; congruence
                     | vm_compute; split; congruence | vm_compute; congruence |].
    destruct (Hfound 1%nat first_at_tag_a) as [_ Hend].
    exact (Hend 2%nat first_at_tag_a_end).
  - destruct (C5_extract_between tag_a tag_a_end (drop 4 x_a_42_a_y)
                (replicate 8 255) 8)
      as [Habs _]; [done | done | vm_compute; congruence
                   | vm_compute; split; congruence | vm_compute; congruence |].
    exact (Habs absent_tag_a).
Defined.

Lemma UART_ExtractBetween_error_dest
    (start_str end_str source dest : option (list Z)) (dest_size : Z)
    (e : UART_ErrorTypeDef) (dest' : option (list Z)) :
  UART_ExtractBetween start_str end_str source dest dest_size = (e, dest') →
  e ≠ UART_SUCCESS → dest' = dest.
Proof.
  unfold UART_ExtractBetween. intros Hcall Herr.
  destruct start_str, end_str, source, dest; try (by injection Hcall as _ <-).
  repeat match type of Hcall with
         | (if ?c then _ else _) = _ => destruct c
         end;
    try (by injection Hcall as _ <-).
  by injection Hcall as <- _.
Qed.

(** C10. Whenever [UART_ExtractBetween] returns [UART_ERROR_NOT_FOUND] or
    [UART_ERROR_INVALID_PARAM], the destination is exactly as it was: no
    byte of it is written, not even a terminator. *)
Theorem C10_extract_error_leaves_dest
    (start_str end_str source dest : option (list Z)) (dest_size : Z)
    (e : UART_ErrorTypeDef) (dest' : option (list Z)) :
  UART_ExtractBetween start_str end_str source dest dest_size = (e, dest') →
  e = UART_ERROR_NOT_FOUND ∨ e = UART_ERROR_INVALID_PARAM →
  dest' = dest.
Proof.
  intros Hcall Herr. apply (UART_ExtractBetween_error_dest _ _ _ _ _ _ _ Hcall).
  by destruct Herr as [-> | ->].
Qed.

Lemma C10_extract_error_leaves_dest_witness :
  snd (UART_ExtractBetween (Some tag_a) (Some tag_a_end)
         (Some (drop 4 x_a_42_a_y)) (Some (replicate 8 255)) 8)
  = Some (replicate 8 255) ∧
  snd (UART_ExtractBetween (Some tag_a) None (Some x_a_42_a_y)
         (Some (replicate 8 255)) 8)
  = Some (replicate 8 255).
Proof.
  split.
  - apply (C10_extract_error_leaves_dest (Some tag_a) (Some tag_a_end)
             (Some (drop 4 x_a_42_a_y)) (Some (replicate 8 255)) 8
             UART_ERROR_NOT_FOUND); [reflexivity | by left].
  - apply (C10_extract_error_leaves_dest (Some tag_a) None
             (Some x_a_42_a_y) (Some (replicate 8 255)) 8
             UART_ERROR_INVALID_PARAM); [reflexivity | by right].
Defined.

(** ** Null and zero-length arguments *)

(** C6 (as amended). A null pointer argument (and a zero size for the
    destination of [UART_CopyUntil] or [UART_ExtractBetween], and a
    zero-length pattern for [UART_WaitForString]) makes the operation
    return [UART_ERROR_INVALID_PARAM] with the state and the destination
    unchanged.  A zero-length string is not an invalid parameter
    elsewhere: [UART_SendString] of the empty string succeeds and changes
    nothing, and [UART_ExtractBetween] with an empty delimiter or an empty
    source returns [UART_ERROR_NOT_FOUND] with the destination unchanged. *)
Theorem C6_null_arguments_fail_fast (fuel : nat) (w : World) (timeout_ms size : Z) :
  UART_ReadChar None w = (UART_ERROR_INVALID_PARAM, None, w) ∧
  UART_Peek None w = (UART_ERROR_INVALID_PARAM, None, w) ∧
  UART_SendString fuel None w = Some (UART_ERROR_INVALID_PARAM, w) ∧
  UART_WaitForString fuel None timeout_ms w = Some (UART_ERROR_INVALID_PARAM, w) ∧
  UART_WaitForString fuel (Some []) timeout_ms w
  = Some (UART_ERROR_INVALID_PARAM, w) ∧
  (∀ end_str dest, end_str = None ∨ dest = None ∨ size = 0 →
     UART_CopyUntil fuel end_str dest size timeout_ms w
     = Some (UART_ERROR_INVALID_PARAM, dest, w)) ∧
  (∀ start_str end_str source dest,
     start_str = None ∨ end_str = None ∨ source = None ∨ dest = None ∨ size = 0 →
     UART_ExtractBetween start_str end_str source dest size
     = (UART_ERROR_INVALID_PARAM, dest)) ∧
  UART_SendString fuel (Some []) w = Some (UART_SUCCESS, w) ∧
  (∀ start end_s src d,
     size ≠ 0 → start = [] ∨ end_s = [] ∨ src = [] →
     UART_ExtractBetween (Some start) (Some end_s) (Some src) (Some d) size
     = (UART_ERROR_NOT_FOUND, Some d)).
Proof.
  repeat split; try done.
  - intros end_str dest H. unfold UART_CopyUntil.
    destruct end_str, dest; try done.
    destruct H as [?|[?| ->]]; done.
  - intros start_str end_str source dest H. unfold UART_ExtractBetween.
    destruct start_str, end_str, source, dest; try done.
    destruct H as [?|[?|[?|[?| ->]]]]; done.
  - intros start end_s src d Hsize H.
    destruct (UART_ExtractBetween (Some start) (Some end_s) (Some src) (Some d) size)
      as [e d'] eqn:Hcall.
    assert (He : e = UART_ERROR_NOT_FOUND).
    { revert Hcall. unfold UART_ExtractBetween.
      destruct (Z.eqb_spec size 0) as [?|_]; [done|].
      destruct H as [->|[->| ->]].
      - simpl. by intros [= <- _].
      - destruct (_ =? SIZE_MAX); [by intros [= <- _]|].
        simpl. by intros [= <- _].
      - assert (Hf : FindStringInBuffer (Some start) (Some []) (strlen []) = SIZE_MAX).
        { unfold FindStringInBuffer. destruct start; [done|].
          simpl. unfold strlen. simpl.
          by destruct (Z.ltb_spec 0 (Z.pos (Pos.of_succ_nat (length start)))); [|lia]. }
        rewrite Hf. simpl. by intros [= <- _]. }
    subst e. f_equal.
    by apply (UART_ExtractBetween_error_dest _ _ _ _ _ _ _ Hcall).
Qed.

Lemma C6_null_arguments_fail_fast_witness :
  UART_CopyUntil 5 None (Some [1; 2; 3]) 3 100 world0
  = Some (UART_ERROR_INVALID_PARAM, Some [1; 2; 3], world0) ∧
  UART_ExtractBetween (Some tag_a) (Some tag_a_end) None (Some [1; 2; 3]) 3
  = (UART_ERROR_INVALID_PARAM, Some [1; 2; 3]) ∧
  UART_ExtractBetween (Some tag_a) (Some []) (Some x_a_42_a_y) (Some [1; 2; 3]) 3
  = (UART_ERROR_NOT_FOUND, Some [1; 2; 3]).
Proof.
  destruct (C6_null_arguments_fail_fast 5 world0 100 3)
    as (_ & _ & _ & _ & _ & Hcopy & Hextract & _ & Hempty).
  split; [|split].
  - apply Hcopy. by left.
  - apply Hextract. right. right. by left.
  - apply Hempty; [done|]. right. by left.
Defined.

(** C6, as first stated, fails on zero-length strings: sending the
    empty string succeeds, extracting with an empty start delimiter is
    [UART_ERROR_NOT_FOUND], and [UART_CopyUntil] with an empty end pattern
    goes on to consume the three pending bytes and to fill the
    destination. *)
Lemma C6_zero_length_counterexample :
  UART_SendString 1 (Some []) world0 = Some (UART_SUCCESS, world0) ∧
  UART_ExtractBetween (Some []) (Some tag_a_end) (Some x_a_42_a_y)
    (Some (replicate 8 255)) 8
  = (UART_ERROR_NOT_FOUND, Some (replicate 8 255)) ∧
  ∃ w', UART_CopyUntil 9 (Some []) (Some (replicate 4 255)) 4 100
          (received [65; 66; 67] world0)
        = Some (UART_ERROR_BUFFER_FULL, Some [65; 66; 67; 0], w') ∧
        UART_Available (received [65; 66; 67] world0) = 3 ∧
        UART_Available w' = 0.
Proof.
  split; [reflexivity|]. split; [reflexivity|].
  eexists. split; [vm_compute; reflexivity|]. split; reflexivity.
Qed.

(** ** Interrupts and the foreground state *)

Lemma UART_ISR_Handler_frame i rxne txe w :
  ticks (UART_ISR_Handler i rxne txe w) = ticks w ∧
  timeout_start (UART_ISR_Handler i rxne txe w) = timeout_start w ∧
  schedule (UART_ISR_Handler i rxne txe w) = schedule w.
Proof.
  unfold UART_ISR_Handler.
  destruct i, rxne, txe, (cr1_rxneie w), (cr1_txeie w); simpl;
    repeat match goal with |- context [if ?c then _ else _] => destruct c end;
    done.
Qed.

Lemma preempt_frame w :
  timeout_start (preempt w) = timeout_start w ∧
  ticks w ≤ ticks (preempt w) ≤ ticks w + 1 ∧
  (length (schedule (preempt w)) = length (schedule w) - 1)%nat ∧
  (ticks (preempt w) = ticks w → (0 < length (schedule w))%nat).
Proof.
  unfold preempt. destruct (schedule w) as [|e rest] eqn:Hs.
  - simpl. rewrite Hs. simpl. lia.
  - destruct e as [|rxne txe]; simpl.
    + lia.
    + destruct (UART_ISR_Handler_frame true rxne txe (set_schedule rest w))
        as (-> & -> & ->). simpl. lia.
Qed.

Lemma ResetTimeout_set_timeout_start t w :
  ResetTimeout (set_timeout_start t w) = ResetTimeout w.
Proof. done. Qed.

Lemma ResetTimeout_idem w : ResetTimeout (ResetTimeout w) = ResetTimeout w.
Proof. done. Qed.

Lemma set_timeout_start_same w : set_timeout_start (timeout_start w) w = w.
Proof. by destruct w. Qed.

(** ** [WaitForData] *)

Lemma WaitForData_loop_S fuel timeout_ms w :
  WaitForData_loop (S fuel) timeout_ms w
  = if UART_Available w =? 0 then
      if IsTimeOutExpired timeout_ms w then Some (UART_ERROR_TIMEOUT, w)
      else WaitForData_loop fuel timeout_ms (preempt w)
    else Some (UART_SUCCESS, w).
Proof. done. Qed.

Lemma WaitForData_loop_fuel fuel : ∀ timeout_ms w r fuel',
  WaitForData_loop fuel timeout_ms w = Some r → (fuel ≤ fuel')%nat →
  WaitForData_loop fuel' timeout_ms w = Some r.
Proof.
  induction fuel as [|fuel IH]; intros T w r fuel' Hrun Hle; [done|].
  destruct fuel' as [|fuel']; [lia|]. simpl in *.
  destruct (UART_Available w =? 0); [|done].
  destruct (IsTimeOutExpired T w); [done|].
  apply (IH _ _ _ _ Hrun). lia.
Qed.

Lemma WaitForData_fuel fuel fuel' timeout_ms w r :
  WaitForData fuel timeout_ms w = Some r → (fuel ≤ fuel')%nat →
  WaitForData fuel' timeout_ms w = Some r.
Proof. apply WaitForData_loop_fuel. Qed.

(** [WaitForData] starts by resetting the timeout: the value of
    [timeout_start] on entry does not matter. *)
Lemma WaitForData_set_timeout_start fuel timeout_ms t w :
  WaitForData fuel timeout_ms (set_timeout_start t w)
  = WaitForData fuel timeout_ms w.
Proof. done. Qed.

(** With data pending it returns at once. *)
Lemma WaitForData_pending fuel timeout_ms w :
  UART_Available w ≠ 0 →
  WaitForData (S fuel) timeout_ms w = Some (UART_SUCCESS, ResetTimeout w).
Proof.
  intros Hav. unfold WaitForData. simpl.
  change (UART_Available (ResetTimeout w)) with (UART_Available w).
  apply Z.eqb_neq in Hav. by rewrite Hav.
Qed.

(** It returns, after [timeout_ms] milliseconds at most, and exactly then
    when it reports a timeout. *)
Lemma WaitForData_loop_bounded fuel : ∀ timeout_ms w t0,
  timeout_start w = u32 t0 →
  0 ≤ ticks w - t0 ≤ timeout_ms → timeout_ms < 2 ^ 32 →
  (Z.to_nat (timeout_ms - (ticks w - t0)) + length (schedule w) < fuel)%nat →
  ∃ r w', WaitForData_loop fuel timeout_ms w = Some (r, w') ∧
          ticks w ≤ ticks w' ∧ ticks w' - t0 ≤ timeout_ms ∧
          (r = UART_ERROR_TIMEOUT ∧ ticks w' - t0 = timeout_ms ∧ UART_Available w' = 0
           ∨ r = UART_SUCCESS ∧ UART_Available w' ≠ 0).
Proof.
  induction fuel as [|fuel IH]; intros T w t0 Hstart Hel HT Hfuel; [lia|].
  simpl. destruct (Z.eqb_spec (UART_Available w) 0) as [Hav|Hav].
  - assert (Hexp : IsTimeOutExpired T w = (T <=? ticks w - t0)).
    { unfold IsTimeOutExpired, HAL_GetTick. rewrite Hstart. f_equal. euclid. }
    rewrite Hexp. destruct (Z.leb_spec T (ticks w - t0)) as [Hle|Hlt].
    + exists UART_ERROR_TIMEOUT, w. split; [done|]. split; [lia|]. split; [lia|].
      left. split; [done|]. split; [lia|done].
    + destruct (preempt_frame w) as (Hs & Ht & Hsched & Hsame).
      destruct (IH T (preempt w) t0) as (r & w' & Hrun & Hlo & Hhi & Hres).
      * by rewrite Hs.
      * lia.
      * done.
      * destruct (decide (ticks (preempt w) = ticks w)) as [Heq|Hne].
        -- specialize (Hsame Heq). rewrite Heq. lia.
        -- lia.
      * exists r, w'. split; [done|]. split; [lia|]. done.
  - exists UART_SUCCESS, w. split; [done|]. split; [lia|]. split; [lia|].
    right. done.
Qed.

Lemma WaitForData_bounded timeout_ms w :
  0 ≤ timeout_ms < 2 ^ 32 →
  ∃ k r w', (∀ fuel, (k ≤ fuel)%nat →
               WaitForData fuel timeout_ms w = Some (r, w')) ∧
            0 ≤ ticks w' - ticks w ≤ timeout_ms ∧
            (r = UART_ERROR_TIMEOUT ∧ ticks w' - ticks w = timeout_ms
               ∧ UART_Available w' = 0
             ∨ r = UART_SUCCESS ∧ UART_Available w' ≠ 0).
Proof.
  intros HT.
  set (k := S (Z.to_nat timeout_ms + length (schedule w))).
  destruct (WaitForData_loop_bounded k timeout_ms (ResetTimeout w) (ticks w))
    as (r & w' & Hrun & Hlo & Hhi & Hres); simpl; [done | lia | lia | lia |].
  simpl in *. exists k, r, w'. split.
  - intros fuel Hfuel. by apply (WaitForData_loop_fuel k).
  - split; [lia|done].
Qed.

(** ** The streaming matcher *)

Section Matcher.
Variable str : list Z.
Hypothesis str_nonempty : str ≠ [].
Hypothesis str_fits : strlen str ≤ SIZE_MAX.

Lemma strlen_pos : 0 < strlen str.
Proof. pose proof (str_length_pos str str_nonempty). unfold strlen. lia. Qed.

Lemma match_step_spec m c :
  0 ≤ m < strlen str →
  match_step str m c
  = (if c =? str_at str m then m + 1
     else if c =? str_at str 0 then 1 else 0) ∧
  0 ≤ match_step str m c ≤ strlen str ∧
  (reported str m c = true ↔ match_step str m c = strlen str).
Proof.
  intros Hm. pose proof strlen_pos as Hpos.
  unfold match_step, reported. rewrite sz_small by lia.
  destruct (Z.eqb_spec c (str_at str m)) as [Hc|Hc]; simpl.
  - split; [done|]. split; [lia|]. apply Z.eqb_eq.
  - destruct (Z.eqb_spec c (str_at str 0)) as [Hc0|Hc0].
    + split; [done|]. split; [lia|]. split; [done|]. intros H1.
      assert (m = 0) as -> by lia. done.
    + split; [done|]. split; [lia|]. split; [done|lia].
Qed.

Lemma match_step_not_reported m c :
  0 ≤ m < strlen str → reported str m c = false →
  0 ≤ match_step str m c < strlen str.
Proof.
  intros Hm Hrep. destruct (match_step_spec m c Hm) as (_ & Hrange & Hiff).
  assert (match_step str m c ≠ strlen str).
  { intros Heq. apply Hiff in Heq. congruence. }
  lia.
Qed.



End Matcher.

(** ** Incoming bytes *)

(** The value of [timeout_start] on entry does not matter to what comes in. *)
Lemma incoming_set_timeout_start timeout_ms t w c bs w' :
  incoming timeout_ms w (c :: bs) w' →
  incoming timeout_ms (set_timeout_start t w) (c :: bs) w'.
Proof.
  intros Hin. inversion Hin as [|fuel ? w1 ? w2 ? ? Hwait Hread Hrest]; subst.
  by apply (incoming_cons timeout_ms fuel _ w1 c w2).
Qed.

Lemma incoming_settle timeout_ms m w c bs w' :
  incoming timeout_ms w (c :: bs) w' →
  incoming timeout_ms (settle m w) (c :: bs) w'.
Proof.
  intros Hin. unfold settle. destruct (0 <? m); [|done].
  by apply (incoming_set_timeout_start _ (HAL_GetTick w)).
Qed.

(** Bytes already in the RX buffer come in without waiting. *)
Lemma incoming_pending timeout_ms bs : ∀ w rest,
  rb_wf (rx_buffer w) → rb_contents (rx_buffer w) = bs ++ rest →
  ∃ w', incoming timeout_ms w bs w' ∧
        rb_wf (rx_buffer w') ∧ rb_contents (rx_buffer w') = rest ∧
        ticks w' = ticks w ∧ schedule w' = schedule w.
Proof.
  induction bs as [|c bs IH]; intros w rest Hwf Hq.
  - exists w. split; [constructor|done].
  - destruct (UART_ReadChar_cons 0 (ResetTimeout w) c (bs ++ rest))
      as (w2 & Hread & Hwf2 & Hq2 & Hw2 & _); [done..|].
    destruct (IH w2 rest Hwf2 Hq2) as (w' & Hin & Hwf' & Hq' & Ht & Hs).
    exists w'. split.
    + apply (incoming_cons timeout_ms 1 w (ResetTimeout w) c w2); [|done..].
      apply WaitForData_pending.
      destruct (UART_Available_wf w Hwf) as [_ ->]. rewrite Hq. simpl. lia.
    + split; [done|]. split; [done|]. rewrite Ht, Hs, Hw2. done.
Qed.

(** ** [UART_WaitForString] over incoming bytes *)

Section WaitForString.
Variable str : list Z.
Hypothesis str_nonempty : str ≠ [].
Hypothesis str_fits : strlen str ≤ SIZE_MAX.
Variable timeout_ms : Z.

(** One round of the loop that obtains a byte. *)
Lemma UART_WaitForString_loop_step f fuel m w w1 c w2 :
  m < strlen str →
  WaitForData f timeout_ms w = Some (UART_SUCCESS, w1) →
  UART_ReadChar (Some 0) w1 = (UART_SUCCESS, Some c, w2) →
  (f ≤ fuel)%nat →
  UART_WaitForString_loop (S fuel) str (strlen str) m timeout_ms w
  = UART_WaitForString_loop fuel str (strlen str) (match_step str m c)
      timeout_ms (settle (match_step str m c) w2).
Proof.
  intros Hm Hwait Hread Hf. cbn [UART_WaitForString_loop].
  apply Z.ltb_lt in Hm. rewrite Hm.
  rewrite (WaitForData_fuel f fuel timeout_ms w _ Hwait Hf), Hread. done.
Qed.

(** While no match is reported the loop goes on, with the matcher fed. *)
Lemma UART_WaitForString_loop_feed bs : ∀ w w' m,
  incoming timeout_ms w bs w' →
  0 ≤ m < strlen str → first_report str m bs = None →
  ∃ k, ∀ fuel, (k ≤ fuel)%nat →
    UART_WaitForString_loop fuel str (strlen str) m timeout_ms w
    = UART_WaitForString_loop (fuel - length bs) str (strlen str)
        (match_run str m bs) timeout_ms
        (match bs with [] => w | _ => settle (match_run str m bs) w' end).
Proof.
  induction bs as [|c bs IH]; intros w w' m Hin Hm Hnone.
  - exists 0%nat. intros fuel _. simpl. by rewrite Nat.sub_0_r.
  - inversion Hin as [|f ? w1 ? w2 ? ? Hwait Hread Hrest]; subst.
    simpl in Hnone. destruct (reported str m c) eqn:Hrep; [done|].
    destruct (first_report str (match_step str m c) bs) eqn:Hnone'; [done|].
    pose proof (match_step_not_reported str str_nonempty str_fits m c Hm Hrep)
      as Hm'.
    destruct bs as [|c' bs].
    + inversion Hrest; subst. exists (S f). intros fuel Hfuel.
      destruct fuel as [|fuel]; [lia|].
      rewrite (UART_WaitForString_loop_step f fuel m w w1 c w');
        [|lia|done|done|lia].
      simpl. by rewrite Nat.sub_0_r.
    + destruct (IH (settle (match_step str m c) w2) w' (match_step str m c))
        as [k Hk]; [by apply incoming_settle|done|done|].
      exists (S (f `max` k)). intros fuel Hfuel.
      destruct fuel as [|fuel]; [lia|].
      rewrite (UART_WaitForString_loop_step f fuel m w w1 c w2);
        [|lia|done|done|lia].
      rewrite Hk by lia. done.
Qed.


Lemma UART_WaitForString_unfold fuel w :
  UART_WaitForString fuel (Some str) timeout_ms w
  = UART_WaitForString_loop fuel str (strlen str) 0 timeout_ms (ResetTimeout w).
Proof.
  unfold UART_WaitForString. pose proof (strlen_pos str str_nonempty).
  by destruct (Z.eqb_spec (strlen str) 0); [lia|].
Qed.


Lemma UART_WaitForString_feed bs w w' :
  incoming timeout_ms w bs w' → first_report str 0 bs = None →
  ∃ k, ∀ fuel, (k ≤ fuel)%nat →
    UART_WaitForString fuel (Some str) timeout_ms w
    = UART_WaitForString_loop (fuel - length bs) str (strlen str)
        (match_run str 0 bs) timeout_ms
        (match bs with
         | [] => ResetTimeout w
         | _ => settle (match_run str 0 bs) w'
         end).
Proof.
  intros Hin Hnone. pose proof (strlen_pos str str_nonempty).
  assert (Hin' : incoming timeout_ms (ResetTimeout w) bs
                   (match bs with [] => ResetTimeout w | _ => w' end)).
  { destruct bs; [constructor|by apply incoming_set_timeout_start]. }
  destruct (UART_WaitForString_loop_feed bs (ResetTimeout w) _ 0 Hin')
    as [k Hk]; [lia|done|].
  exists k. intros fuel Hfuel. rewrite UART_WaitForString_unfold, Hk by done.
  by destruct bs.
Qed.
End WaitForString.

Section MatcherReports.
Variable str : list Z.
Hypothesis str_nonempty : str ≠ [].
Hypothesis str_fits : strlen str ≤ SIZE_MAX.


End MatcherReports.




(** Fed "OK\r\n" the call succeeds; fed "OK\r" only it has not matched and
    times out. *)
Example UART_WaitForString_OK_CRLF :
  fst <$> UART_WaitForString 10 (Some OK_CRLF) 100 (received OK_CRLF world0)
  = Some UART_SUCCESS ∧
  fst <$> UART_WaitForString 200 (Some OK_CRLF) 100
            (received (take 3 OK_CRLF) world0)
  = Some UART_ERROR_TIMEOUT.
Proof. split; vm_compute; reflexivity. Qed.

(** ** [UART_CopyUntil] over incoming bytes *)

Lemma store_bytes_length bs : ∀ dest pos,
  length (store_bytes dest pos bs) = length dest.
Proof.
  induction bs as [|c bs IH]; intros dest pos; [done|].
  simpl. by rewrite IH, length_insert.
Qed.

Lemma store_bytes_app bs : ∀ dest pos,
  (pos + length bs ≤ length dest)%nat →
  store_bytes dest pos bs = take pos dest ++ bs ++ drop (pos + length bs) dest.
Proof.
  induction bs as [|c bs IH]; intros dest pos Hlen.
  - simpl. by rewrite Nat.add_0_r, take_drop.
  - simpl in *. rewrite IH by (rewrite length_insert; lia).
    rewrite (take_S_r _ _ c) by (apply list_lookup_insert_eq; lia).
    rewrite take_insert_ge by lia. rewrite drop_insert_lt by lia.
    rewrite <- app_assoc.
    by replace (S pos + length bs)%nat with (pos + S (length bs))%nat by lia.
Qed.

Lemma terminate_store_bytes bs dest :
  (length bs < length dest)%nat →
  <[length bs := 0]> (store_bytes dest 0 bs) = bs ++ 0 :: drop (S (length bs)) dest.
Proof.
  intros Hlen. rewrite store_bytes_app by (simpl; lia). simpl.
  rewrite insert_app_r_alt, Nat.sub_diag by lia.
  f_equal. destruct (drop (length bs) dest) as [|y tl] eqn:Hd.
  - apply (f_equal length) in Hd. rewrite length_drop in Hd. simpl in Hd. lia.
  - simpl. f_equal. replace (S (length bs)) with (length bs + 1)%nat by lia.
    by rewrite <- drop_drop, Hd.
Qed.

Section CopyUntil.
Variable end_str : list Z.
Variables buffer_size timeout_ms : Z.
Hypothesis size_range : 0 < buffer_size ≤ SIZE_MAX.

Lemma UART_CopyUntil_loop_step f fuel dest pos m w w1 c w2 :
  (Z.of_nat pos < buffer_size - 1) →
  WaitForData f timeout_ms w = Some (UART_SUCCESS, w1) →
  UART_ReadChar (Some 0) w1 = (UART_SUCCESS, Some c, w2) →
  (f ≤ fuel)%nat →
  UART_CopyUntil_loop (S fuel) end_str dest buffer_size (strlen end_str)
    (Z.of_nat pos) m timeout_ms w
  = if reported end_str m c
    then Some (UART_SUCCESS, <[S pos := 0]> (<[pos := c]> dest), w2)
    else UART_CopyUntil_loop fuel end_str (<[pos := c]> dest) buffer_size
           (strlen end_str) (Z.of_nat (S pos)) (match_step end_str m c)
           timeout_ms w2.
Proof.
  intros Hpos Hwait Hread Hf. cbn [UART_CopyUntil_loop].
  rewrite (sz_small (buffer_size - 1)) by lia.
  apply Z.ltb_lt in Hpos. rewrite Hpos. apply Z.ltb_lt in Hpos.
  rewrite (WaitForData_fuel f fuel timeout_ms w _ Hwait Hf), Hread.
  cbn [default]. change (id c) with c.
  rewrite (sz_small (Z.of_nat pos + 1)) by lia.
  replace (Z.of_nat pos + 1) with (Z.of_nat (S pos)) by lia.
  rewrite !Nat2Z.id. unfold reported, match_step.
  destruct (c =? str_at end_str m); [|by destruct (c =? str_at end_str 0)].
  simpl. by destruct (sz (m + 1) =? strlen end_str).
Qed.

Lemma UART_CopyUntil_loop_feed bs : ∀ w w' dest pos m,
  incoming timeout_ms w bs w' →
  first_report end_str m bs = None →
  Z.of_nat (pos + length bs) ≤ buffer_size - 1 →
  ∃ k, ∀ fuel, (k ≤ fuel)%nat →
    UART_CopyUntil_loop fuel end_str dest buffer_size (strlen end_str)
      (Z.of_nat pos) m timeout_ms w
    = UART_CopyUntil_loop (fuel - length bs) end_str (store_bytes dest pos bs)
        buffer_size (strlen end_str) (Z.of_nat (pos + length bs))
        (match_run end_str m bs) timeout_ms w'.
Proof.
  induction bs as [|c bs IH]; intros w w' dest pos m Hin Hnone Hroom.
  - inversion Hin; subst. exists 0%nat. intros fuel _. simpl.
    by rewrite Nat.sub_0_r, Nat.add_0_r.
  - inversion Hin as [|f ? w1 ? w2 ? ? Hwait Hread Hrest]; subst.
    simpl in Hnone. destruct (reported end_str m c) eqn:Hrep; [done|].
    destruct (first_report end_str (match_step end_str m c) bs) eqn:Hnone';
      [done|].
    simpl in Hroom.
    destruct (IH w2 w' (<[pos := c]> dest) (S pos) (match_step end_str m c))
      as [k Hk]; [done|done|lia|].
    exists (S (f `max` k)). intros fuel Hfuel.
    destruct fuel as [|fuel]; [lia|].
    rewrite (UART_CopyUntil_loop_step f fuel dest pos m w w1 c w2);
      [|lia|done|done|lia].
    rewrite Hrep, Hk by lia. simpl.
    by replace (pos + S (length bs))%nat with (S pos + length bs)%nat by lia.
Qed.

Lemma UART_CopyUntil_loop_report bs : ∀ w w' dest pos m,
  incoming timeout_ms w bs w' →
  first_report end_str m bs = Some (length bs) →
  Z.of_nat (pos + length bs) ≤ buffer_size - 1 →
  ∃ k, ∀ fuel, (k ≤ fuel)%nat →
    UART_CopyUntil_loop fuel end_str dest buffer_size (strlen end_str)
      (Z.of_nat pos) m timeout_ms w
    = Some (UART_SUCCESS,
            <[(pos + length bs)%nat := 0]> (store_bytes dest pos bs), w').
Proof.
  induction bs as [|c bs IH]; intros w w' dest pos m Hin Hsome Hroom; [done|].
  inversion Hin as [|f ? w1 ? w2 ? ? Hwait Hread Hrest]; subst.
  simpl in Hsome, Hroom. destruct (reported end_str m c) eqn:Hrep.
  - assert (bs = []) as -> by (destruct bs; [done|simplify_eq]).
    inversion Hrest; subst.
    exists (S f). intros fuel Hfuel. destruct fuel as [|fuel]; [lia|].
    rewrite (UART_CopyUntil_loop_step f fuel dest pos m w w1 c w');
      [|simpl in Hroom; lia|done|done|lia].
    rewrite Hrep. simpl. by replace (pos + 1)%nat with (S pos) by lia.
  - destruct (first_report end_str (match_step end_str m c) bs) as [n|]
      eqn:Hrest'; [|done].
    assert (n = length bs) as -> by (simpl in Hsome; simplify_eq; done).
    destruct (IH w2 w' (<[pos := c]> dest) (S pos) (match_step end_str m c))
      as [k Hk]; [done|done|lia|].
    exists (S (f `max` k)). intros fuel Hfuel.
    destruct fuel as [|fuel]; [lia|].
    rewrite (UART_CopyUntil_loop_step f fuel dest pos m w w1 c w2);
      [|lia|done|done|lia].
    rewrite Hrep, Hk by lia. simpl.
    by replace (pos + S (length bs))%nat with (S pos + length bs)%nat by lia.
Qed.
End CopyUntil.

(** When the matcher first reports the end pattern on the last of the
    bytes [bs] obtained by [UART_CopyUntil], and [bs] fits in
    [buffer_size - 1] bytes, the call returns success with every byte of
    [bs] copied to the destination and followed by a NUL. *)
Lemma UART_CopyUntil_report (end_str dest bs : list Z)
    (buffer_size timeout_ms : Z) (w w' : World) :
  incoming timeout_ms w bs w' →
  first_report end_str 0 bs = Some (length bs) →
  Z.of_nat (length bs) ≤ buffer_size - 1 →
  buffer_size ≤ Z.of_nat (length dest) → buffer_size ≤ SIZE_MAX →
  ∃ k, ∀ fuel, (k ≤ fuel)%nat →
    UART_CopyUntil fuel (Some end_str) (Some dest) buffer_size timeout_ms w
    = Some (UART_SUCCESS, Some (bs ++ 0 :: drop (S (length bs)) dest), w').
Proof.
  intros Hin Hsome Hroom Hdest Hmax.
  destruct bs as [|c bs]; [done|].
  assert (Hsize : 0 < buffer_size ≤ SIZE_MAX) by (simpl in Hroom; lia).
  destruct (UART_CopyUntil_loop_report end_str buffer_size timeout_ms Hsize
              (c :: bs) (ResetTimeout w) w' dest 0%nat 0)
    as [k Hk]; [by apply incoming_set_timeout_start|done|done|].
  exists k. intros fuel Hfuel. unfold UART_CopyUntil.
  destruct (Z.eqb_spec buffer_size 0) as [?|_]; [lia|].
  pose proof (Hk fuel Hfuel) as Hrun. change (Z.of_nat 0) with 0 in Hrun.
  rewrite Hrun. change (0 + length (c :: bs))%nat with (length (c :: bs)).
  rewrite terminate_store_bytes; [done|]. lia.
Qed.

(** *** The matcher and the literal occurrences of the pattern *)

Lemma str_at_lookup (str : list Z) (m : nat) (x : Z) :
  str !! m = Some x → str_at str (Z.of_nat m) = x.
Proof. intros Hx. unfold str_at. by rewrite Nat2Z.id, Hx. Qed.

Lemma sz_succ (str : list Z) (m : nat) :
  strlen str ≤ SIZE_MAX → (m < length str)%nat →
  sz (Z.of_nat m + 1) = Z.of_nat (S m).
Proof. intros Hfit Hm. unfold strlen in Hfit. rewrite sz_small; lia. Qed.

(** Fed the rest of the pattern from the state that stands for its
    beginning, the matcher reports on the last byte. *)
Lemma first_report_rest (str : list Z) back : ∀ front,
  strlen str ≤ SIZE_MAX → str = front ++ back → back ≠ [] →
  first_report str (Z.of_nat (length front)) back = Some (length back).
Proof.
  induction back as [|c back IH]; intros front Hfit Hstr Hne; [done|].
  assert (Hc : str !! length front = Some c).
  { rewrite Hstr. by rewrite list_lookup_middle. }
  assert (Hlen : length str = (length front + S (length back))%nat).
  { rewrite Hstr, length_app. done. }
  cbn [first_report]. unfold reported, match_step.
  rewrite (str_at_lookup _ _ _ Hc), Z.eqb_refl, (sz_succ str) by (done || lia).
  unfold strlen. destruct back as [|c' back].
  - destruct (Z.eqb_spec (Z.of_nat (S (length front))) (Z.of_nat (length str)))
      as [_|?]; [done|simpl in Hlen; lia].
  - destruct (Z.eqb_spec (Z.of_nat (S (length front))) (Z.of_nat (length str)))
      as [?|_]; [simpl in Hlen; lia|].
    cbn [andb].
    replace (S (length front)) with (length (front ++ [c]))
      by (rewrite length_app; simpl; lia).
    rewrite IH; [done|done| |done]. by rewrite <- app_assoc.
Qed.

Section FirstOccurrence.
Variable p0 : Z.
Variable tl : list Z.
Hypothesis first_byte_once : p0 ∉ tl.
Hypothesis pattern_fits : strlen (p0 :: tl) ≤ SIZE_MAX.

(** Fed the pattern from any state below its length, the matcher reports
    on the last byte. *)
Lemma first_report_pattern (m : nat) :
  (m < length (p0 :: tl))%nat →
  first_report (p0 :: tl) (Z.of_nat m) (p0 :: tl) = Some (length (p0 :: tl)).
Proof.
  intros Hm. destruct (lookup_lt_is_Some_2 (p0 :: tl) m Hm) as [x Hx].
  assert (Hx0 : x = p0 ↔ m = 0%nat).
  { split.
    - intros ->. destruct m as [|m]; [done|]. simpl in Hx.
      exfalso. apply first_byte_once. by apply list_elem_of_lookup_2 in Hx.
    - intros ->. simpl in Hx. congruence. }
  cbn [first_report]. unfold reported, match_step.
  rewrite (str_at_lookup _ _ _ Hx), (sz_succ (p0 :: tl)) by done.
  change (str_at (p0 :: tl) 0) with p0. rewrite (Z.eqb_refl p0).
  unfold strlen. destruct tl as [|c back] eqn:Htl.
  - assert (m = 0%nat) as -> by (simpl in Hm; lia).
    assert (x = p0) as -> by (by apply Hx0). by rewrite Z.eqb_refl.
  - assert (Hstate : (if p0 =? x then Z.of_nat (S m) else 1) = Z.of_nat 1
                     ∧ ((p0 =? x)
                        && (Z.of_nat (S m) =? Z.of_nat (length (p0 :: c :: back)))
                        = false)).
    { destruct (Z.eqb_spec p0 x) as [Heq|Hne].
      - assert (m = 0%nat) as -> by (by apply Hx0). split; [done|].
        apply andb_false_iff. right. apply Z.eqb_neq. simpl length. lia.
      - split; reflexivity. }
    destruct Hstate as [-> ->].
    assert (Hfit' : strlen (p0 :: c :: back) ≤ SIZE_MAX) by done.
    pose proof (first_report_rest (p0 :: c :: back) (c :: back) [p0]
                  Hfit' eq_refl ltac:(done)) as Hrest.
    change (length [p0]) with 1%nat in Hrest. by rewrite Hrest.
Qed.

(** Soundness and completeness on a first occurrence: from a state that
    stands for a suffix of the bytes [h] consumed so far, fed [pre] and
    then the pattern, with no earlier occurrence of the pattern in the
    whole stream, the matcher first reports on the last byte. *)
Lemma first_report_first_occurrence pre : ∀ h (m : nat),
  (m < length (p0 :: tl))%nat →
  (∃ front, h = front ++ take m (p0 :: tl)) →
  first_at (p0 :: tl) (h ++ pre ++ p0 :: tl) (length h + length pre) →
  first_report (p0 :: tl) (Z.of_nat m) (pre ++ p0 :: tl)
  = Some (length pre + length (p0 :: tl))%nat.
Proof.
  set (P := p0 :: tl) in *.
  induction pre as [|c pre IH]; intros h m Hm [front Hh] Hfirst.
  - by apply first_report_pattern.
  - destruct (lookup_lt_is_Some_2 P m Hm) as [x Hx].
    assert (Htake : take (S m) P = take m P ++ [x]) by (by apply take_S_r).
    cbn [app first_report].
    destruct (reported P (Z.of_nat m) c) eqn:Hrep.
    + (* a report here would be an earlier occurrence *)
      exfalso. unfold reported in Hrep.
      rewrite (str_at_lookup _ _ _ Hx), (sz_succ P) in Hrep by done.
      apply andb_true_iff in Hrep as [Hc HL].
      apply Z.eqb_eq in Hc. apply Z.eqb_eq in HL. unfold strlen in HL.
      assert (HSm : S m = length P) by lia.
      destruct Hfirst as [_ Hearlier].
      apply (Hearlier (length front)).
      * rewrite Hh, length_app, length_take. simpl. lia.
      * unfold occurs_at. rewrite Hh, Hc.
        replace ((front ++ take m P) ++ (x :: pre) ++ P)
          with (front ++ P ++ pre ++ P).
        -- by rewrite drop_app_length, take_app_length.
        -- rewrite <- (take_ge P (S m)) at 1 by lia.
           rewrite Htake, <- !app_assoc. done.
    + pose proof (match_step_not_reported P ltac:(done) pattern_fits
                    (Z.of_nat m) c ltac:(unfold strlen; lia) Hrep) as Hrange.
      assert (Hnext : ∃ m' : nat,
                match_step P (Z.of_nat m) c = Z.of_nat m' ∧
                ∃ front', h ++ [c] = front' ++ take m' P).
      { unfold match_step.
        rewrite (str_at_lookup _ _ _ Hx), (sz_succ P) by done.
        change (str_at P 0) with p0.
        destruct (Z.eqb_spec c x) as [->|Hcx].
        - exists (S m). split; [done|]. exists front.
          by rewrite Hh, Htake, <- app_assoc.
        - destruct (Z.eqb_spec c p0) as [->|Hc0].
          + exists 1%nat. split; [done|]. exists h. done.
          + exists 0%nat. split; [done|]. exists (h ++ [c]).
            by rewrite app_nil_r. }
      destruct Hnext as (m' & Hm' & Hinv). rewrite Hm' in *.
      rewrite (IH (h ++ [c]) m'); [| |done|].
      * simpl. f_equal.
      * unfold strlen in Hrange. lia.
      * rewrite <- app_assoc, length_app. simpl.
        by replace (length h + 1 + length pre)%nat
          with (length h + S (length pre))%nat by lia.
Qed.

(** When the pattern first occurs in [bs] at its very end, the matcher
    first reports on the last byte of [bs]. *)
Lemma first_report_at_end bs :
  first_at (p0 :: tl) bs (length bs - length (p0 :: tl)) →
  first_report (p0 :: tl) 0 bs = Some (length bs).
Proof.
  intros Hfirst. pose proof Hfirst as [Hocc _].
  assert (Hne : p0 :: tl ≠ []) by done.
  pose proof (occurs_at_bound _ _ _ Hne Hocc) as Hb.
  set (i := (length bs - length (p0 :: tl))%nat) in *.
  assert (Hsplit : bs = take i bs ++ p0 :: tl).
  { rewrite <- (take_drop i bs) at 1. f_equal.
    unfold occurs_at in Hocc. rewrite <- Hocc.
    symmetry. apply take_ge. rewrite length_drop. lia. }
  assert (Hi : length (take i bs) = i) by (rewrite length_take; lia).
  assert (Hf : first_at (p0 :: tl) ([] ++ take i bs ++ p0 :: tl)
                 (length (@nil Z) + length (take i bs))).
  { simpl. by rewrite <- Hsplit, Hi. }
  assert (Hm0 : (0 < length (p0 :: tl))%nat) by (simpl; lia).
  assert (Hex : ∃ front : list Z, [] = front ++ take 0 (p0 :: tl)) by (by exists []).
  pose proof (first_report_first_occurrence (take i bs) [] 0%nat Hm0 Hex Hf)
    as Hrep.
  change (Z.of_nat 0) with 0 in Hrep. rewrite <- Hsplit, Hi in Hrep.
  rewrite Hrep. f_equal. lia.
Qed.
End FirstOccurrence.

(** C3 (as amended). When the matcher of [UART_CopyUntil] (the rule of
    C2) first reports the end pattern complete on the last of the bytes
    [bs] it obtains, and [bs] fits in [buffer_size - 1] bytes, the call
    returns success with every byte of [bs], those of the pattern
    included, copied to the destination and followed by a NUL.  For a
    pattern whose first byte does not occur again in it, this is so
    whenever the pattern first occurs in [bs] at its very end. *)
Theorem C3_copy_until_success (end_str dest bs : list Z)
    (buffer_size timeout_ms : Z) (w w' : World) :
  incoming timeout_ms w bs w' →
  Z.of_nat (length bs) ≤ buffer_size - 1 →
  buffer_size ≤ Z.of_nat (length dest) → buffer_size ≤ SIZE_MAX →
  (first_report end_str 0 bs = Some (length bs) →
   ∃ k, ∀ fuel, (k ≤ fuel)%nat →
     UART_CopyUntil fuel (Some end_str) (Some dest) buffer_size timeout_ms w
     = Some (UART_SUCCESS, Some (bs ++ 0 :: drop (S (length bs)) dest), w')) ∧
  (∀ p0 tl,
     end_str = p0 :: tl → p0 ∉ tl → strlen end_str ≤ SIZE_MAX →
     first_at end_str bs (length bs - length end_str) →
     ∃ k, ∀ fuel, (k ≤ fuel)%nat →
       UART_CopyUntil fuel (Some end_str) (Some dest) buffer_size timeout_ms w
       = Some (UART_SUCCESS, Some (bs ++ 0 :: drop (S (length bs)) dest), w')).
Proof.
  intros Hin Hroom Hdest Hmax. split.
  - intros Hsome. by apply UART_CopyUntil_report.
  - intros p0 tl -> Hnotin Hfit Hfirst.
    apply UART_CopyUntil_report; try done.
    by apply first_report_at_end.
Qed.

(** C4. When [buffer_size - 1] bytes [bs] are obtained without the end
    pattern completing, [UART_CopyUntil] returns
    [UART_ERROR_BUFFER_FULL], and the destination holds the bytes obtained
    so far, followed by a NUL. *)
Theorem C4_copy_until_buffer_full (end_str dest bs : list Z)
    (buffer_size timeout_ms : Z) (w w' : World) :
  incoming timeout_ms w bs w' →
  first_report end_str 0 bs = None →
  Z.of_nat (length bs) = buffer_size - 1 →
  buffer_size ≤ Z.of_nat (length dest) → buffer_size ≤ SIZE_MAX →
  ∃ k, ∀ fuel, (k ≤ fuel)%nat →
    UART_CopyUntil fuel (Some end_str) (Some dest) buffer_size timeout_ms w
    = Some (UART_ERROR_BUFFER_FULL,
            Some (bs ++ 0 :: drop (S (length bs)) dest),
            match bs with [] => ResetTimeout w | _ => w' end).
Proof.
  intros Hin Hnone Hfull Hdest Hmax.
  assert (Hsize : 0 < buffer_size ≤ SIZE_MAX) by lia.
  assert (Hin' : incoming timeout_ms (ResetTimeout w) bs
                   (match bs with [] => ResetTimeout w | _ => w' end)).
  { destruct bs; [constructor|by apply incoming_set_timeout_start]. }
  destruct (UART_CopyUntil_loop_feed end_str buffer_size timeout_ms Hsize
              bs (ResetTimeout w) _ dest 0%nat 0 Hin')
    as [k Hk]; [done|simpl; lia|].
  exists (k `max` S (length bs))%nat. intros fuel Hfuel.
  unfold UART_CopyUntil.
  destruct (Z.eqb_spec buffer_size 0) as [?|_]; [lia|].
  pose proof (Hk fuel ltac:(lia)) as Hrun. change (Z.of_nat 0) with 0 in Hrun.
  rewrite Hrun.
  destruct (fuel - length bs)%nat as [|fuel'] eqn:Hrest; [lia|].
  cbn [UART_CopyUntil_loop]. rewrite (sz_small (buffer_size - 1)) by lia.
  simpl (0 + length bs)%nat.
  destruct (Z.ltb_spec (Z.of_nat (length bs)) (buffer_size - 1)) as [?|_]; [lia|].
  rewrite Nat2Z.id, terminate_store_bytes; [done|]. lia.
Qed.

Lemma received_wf bs :
  (length bs < 1023)%nat →
  rb_wf (rx_buffer (received bs world0)) ∧
  rb_contents (rx_buffer (received bs world0)) = map u8 bs.
Proof.
  assert (Hgen : ∀ bs w,
            rb_wf (rx_buffer w) → cr1_rxneie w = true →
            (length (rb_contents (rx_buffer w)) + length bs < 1023)%nat →
            rb_wf (rx_buffer (received bs w)) ∧
            rb_contents (rx_buffer (received bs w))
            = rb_contents (rx_buffer w) ++ map u8 bs).
  { clear bs. induction bs as [|c bs IH]; intros w Hwf Hie Hlen.
    - simpl. by rewrite app_nil_r.
    - simpl in Hlen.
      destruct (StoreChar_room (u8 c) (rx_buffer w)) as (b' & Hst & Hwf' & Hq');
        [done|unfold_ints; lia|].
      assert (Hstep : UART_ISR_Handler true (Some c) false w = set_rx_buffer b' w).
      { unfold UART_ISR_Handler. simpl. by rewrite Hie, Hst. }
      unfold received. simpl. rewrite Hstep. fold (received bs (set_rx_buffer b' w)).
      destruct (IH (set_rx_buffer b' w)) as [Hwf2 Hq2]; [done|done| |].
      + simpl. rewrite Hq', length_app. simpl. lia.
      + split; [done|]. rewrite Hq2. simpl. rewrite Hq', <- app_assoc. done. }
  intros Hlen. destruct (Hgen bs world0) as [Hwf Hq];
    [split; [reflexivity|vm_compute; repeat split; congruence]|done| |done].
  change (rb_contents (rx_buffer world0)) with (@nil Z). simpl. lia.
Qed.

Lemma first_at_CRLF : first_at CRLF hello_CRLF (length hello_CRLF - length CRLF).
Proof.
  split; [reflexivity|]. intros j Hj.
  do 5 (destruct j as [|j]; [vm_compute; congruence|]). simpl in Hj. lia.
Defined.

Lemma C3_copy_until_success_witness :
  ∃ k w',
    (∀ fuel, (k ≤ fuel)%nat →
       UART_CopyUntil fuel (Some CRLF) (Some (replicate 16 255)) 16 200
         (received hello_CRLF world0)
       = Some (UART_SUCCESS, Some (hello_CRLF ++ 0 :: replicate 8 255), w')) ∧
    UART_Available w' = 0.
Proof.
  destruct (received_wf hello_CRLF) as [Hwf Hq]; [simpl; lia|].
  destruct (incoming_pending 200 hello_CRLF (received hello_CRLF world0) [])
    as (w' & Hin & Hwf' & Hq' & _); [exact Hwf | exact Hq |].
  destruct (C3_copy_until_success CRLF (replicate 16 255) hello_CRLF 16 200
              _ w' Hin) as [Hreported Hliteral];
    [vm_compute; congruence | vm_compute; congruence | vm_compute; congruence |].
  destruct (Hreported eq_refl) as [k Hk].
  destruct (Hliteral 13 [10] eq_refl) as [k' Hk'].
  { intros Hin13. apply list_elem_of_singleton in Hin13. discriminate. }
  { vm_compute. congruence. }
  { exact first_at_CRLF. }
  exists k, w'. split; [exact Hk|].
  destruct (UART_Available_wf w' Hwf') as [_ ->]. by rewrite Hq'.
Defined.

(** C3, as first stated, fails for a pattern that overlaps itself: in
    "AAAB" the pattern "AAB" completes on the fourth byte, well inside a
    destination of 16 bytes, but the matcher, which does not backtrack,
    never reports it; [UART_CopyUntil] copies the four bytes, waits, and
    returns [UART_ERROR_TIMEOUT] with no NUL written. *)
Lemma C3_overlapping_pattern_counterexample :
  first_at [65; 65; 66] [65; 65; 65; 66] 1 ∧
  first_report [65; 65; 66] 0 [65; 65; 65; 66] = None ∧
  (λ r, (r.1.1, r.1.2)) <$>
    UART_CopyUntil 210 (Some [65; 65; 66]) (Some (replicate 16 255)) 16 200
      (received [65; 65; 65; 66] world0)
  = Some (UART_ERROR_TIMEOUT, Some ([65; 65; 65; 66] ++ replicate 12 255)).
Proof.
  split; [|split; [reflexivity | vm_compute; reflexivity]].
  split; [reflexivity|]. intros j Hj. assert (j = 0%nat) as -> by lia.
  vm_compute. congruence.
Qed.

Lemma C4_copy_until_buffer_full_witness :
  ∃ k w',
    (∀ fuel, (k ≤ fuel)%nat →
       UART_CopyUntil fuel (Some CRLF) (Some (replicate 16 255)) 16 200
         (received (replicate 20 65) world0)
       = Some (UART_ERROR_BUFFER_FULL, Some (replicate 15 65 ++ [0]), w')) ∧
    UART_Available w' = 5.
Proof.
  destruct (received_wf (replicate 20 65)) as [Hwf Hq]; [simpl; lia|].
  destruct (incoming_pending 200 (replicate 15 65)
              (received (replicate 20 65) world0) (replicate 5 65))
    as (w' & Hin & Hwf' & Hq' & _); [exact Hwf | exact Hq |].
  destruct (C4_copy_until_buffer_full CRLF (replicate 16 255) (replicate 15 65)
              16 200 _ w' Hin) as [k Hk];
    [reflexivity | reflexivity | vm_compute; congruence
    | vm_compute; congruence |].
  exists k, w'. split; [exact Hk|].
  destruct (UART_Available_wf w' Hwf') as [_ ->]. by rewrite Hq'.
Defined.

(** The two calls of the specification, run: "hello\r\n" is copied whole
    with success; twenty bytes without the token fill the sixteen-byte
    destination with fifteen bytes and a NUL. *)
Example UART_CopyUntil_runs :
  (λ r, (r.1.1, r.1.2)) <$>
    UART_CopyUntil 20 (Some CRLF) (Some (replicate 16 255)) 16 200
      (received hello_CRLF world0)
  = Some (UART_SUCCESS, Some (hello_CRLF ++ 0 :: replicate 8 255)) ∧
  (λ r, (r.1.1, r.1.2)) <$>
    UART_CopyUntil 20 (Some CRLF) (Some (replicate 16 255)) 16 200
      (received (replicate 20 65) world0)
  = Some (UART_ERROR_BUFFER_FULL, Some (replicate 15 65 ++ [0])).
Proof. split; vm_compute; reflexivity. Qed.

(** ** Timing of [UART_WaitForString] *)

Section Trickle.
Variable timeout_ms : Z.
Hypothesis timeout_range : 0 ≤ timeout_ms < 2 ^ 32.


(** With nothing to come, [WaitForData] times out after [timeout_ms]. *)
Lemma WaitForData_idle w :
  UART_Available w = 0 → schedule w = [] →
  ∃ w', (∀ fuel, (S (Z.to_nat timeout_ms) ≤ fuel)%nat →
           WaitForData fuel timeout_ms w = Some (UART_ERROR_TIMEOUT, w')) ∧
        ticks w' = ticks w + timeout_ms.
Proof.
  intros Hav Hs.
  assert (Hloop : ∀ n w0, UART_Available w0 = 0 → schedule w0 = [] →
            timeout_start w0 = u32 (ticks w) → 0 ≤ ticks w0 - ticks w →
            ticks w0 - ticks w + Z.of_nat n = timeout_ms →
            WaitForData_loop (S n) timeout_ms w0
            = Some (UART_ERROR_TIMEOUT, set_ticks (ticks w0 + Z.of_nat n) w0)).
  { induction n as [|n IH]; intros w0 Hav0 Hs0 Hstart Hel Hend.
    - simpl. rewrite Hav0. simpl.
      assert (Hexp : IsTimeOutExpired timeout_ms w0 = true).
      { unfold IsTimeOutExpired, HAL_GetTick. rewrite Hstart.
        apply Z.leb_le. euclid. }
      rewrite Hexp, Z.add_0_r. by destruct w0.
    - rewrite WaitForData_loop_S, Hav0. simpl (0 =? 0).
      assert (Hexp : IsTimeOutExpired timeout_ms w0 = false).
      { unfold IsTimeOutExpired, HAL_GetTick. rewrite Hstart.
        apply Z.leb_gt. euclid. }
      rewrite Hexp. unfold preempt. rewrite Hs0.
      rewrite IH; simpl; [|done|done|done|lia|lia].
      do 2 f_equal. unfold set_ticks. simpl. f_equal. lia. }
  exists (set_ticks (ticks w + timeout_ms) (ResetTimeout w)). split; [|done].
  intros fuel Hfuel.
  apply (WaitForData_fuel (S (Z.to_nat timeout_ms))); [|done].
  unfold WaitForData. rewrite Hloop; simpl; [|done|done|done|lia|lia].
  by rewrite Z2Nat.id by lia.
Qed.

End Trickle.




(** The same call, run: three bytes 4 ms apart against a timeout of 5 ms;
    the call gives up 17 ms after it started.  [WaitForData] resets the
    timeout whenever it is entered, so bytes that match nothing ("X")
    hold the call just as long. *)
Example UART_WaitForString_trickle_run :
  (λ r, (r.1, ticks r.2)) <$>
    UART_WaitForString 40 (Some OK_CRLF) 5 (set_schedule (trickle 3 4 79) world0)
  = Some (UART_ERROR_TIMEOUT, 17) ∧
  (λ r, (r.1, ticks r.2)) <$>
    UART_WaitForString 40 (Some OK_CRLF) 5 (set_schedule (trickle 3 4 88) world0)
  = Some (UART_ERROR_TIMEOUT, 17).
Proof. split; vm_compute; reflexivity. Qed.

(** * Further properties of the driver *)

(** ** Ring buffer steps, on either buffer *)

Lemma StoreChar_wf c b : rb_wf b → rb_wf (snd (StoreChar c b)).
Proof.
  intros (Hlen & Hh & Ht). unfold StoreChar.
  rewrite next_index by (unfold_ints; lia).
  destruct (_ =? _); [done|]. simpl.
  split; [|split]; simpl; [by rewrite length_insert | apply next_index_range | done].
Qed.

Lemma rb_contents_bound b :
  rb_wf b → Z.of_nat (length (rb_contents b)) ≤ UART_BUFFER_SIZE - 1.
Proof. intros Hwf. rewrite rb_contents_length. pose proof (rb_pending_lt b Hwf). lia. Qed.

Lemma StoreChar_full c b :
  rb_wf b → Z.of_nat (length (rb_contents b)) = UART_BUFFER_SIZE - 1 →
  StoreChar c b = (UART_ERROR_BUFFER_FULL, b).
Proof.
  intros (Hlen & Hh & Ht) Hfull. rewrite rb_contents_length in Hfull.
  unfold StoreChar. rewrite next_index by (unfold_ints; lia).
  assert (Heq : (head b + 1) mod UART_BUFFER_SIZE = tail b).
  { unfold rb_pending in Hfull. euclid. }
  apply Z.eqb_eq in Heq. by rewrite Heq.
Qed.

(** Advancing [tail] past the oldest byte. *)
Lemma rb_advance b x q :
  rb_wf b → rb_contents b = x :: q →
  head b ≠ tail b ∧
  default 0 (buffer b !! Z.to_nat (tail b)) = x ∧
  rb_wf (mkRingBuffer (buffer b) (head b)
           (u16 (Z.rem (tail b + 1) UART_BUFFER_SIZE))) ∧
  rb_contents (mkRingBuffer (buffer b) (head b)
                 (u16 (Z.rem (tail b + 1) UART_BUFFER_SIZE))) = q.
Proof.
  intros Hwf Hq.
  destruct (UART_ReadChar_cons 0 (set_rx_buffer b world0) x q)
    as (w' & Hread & Hwf' & Hq' & _); [done|done|].
  unfold UART_ReadChar in Hread. simpl in Hread.
  destruct (Z.eqb_spec (head b) (tail b)) as [?|Hne]; [done|].
  injection Hread as Hx <-. simpl in Hwf', Hq'. done.
Qed.

(** ** Flush, peek, and the receive path *)

(** X1. Whatever the state, [UART_FlushRX] leaves the RX buffer empty:
    [UART_Available] is 0, a read fails with [UART_ERROR_BUFFER_EMPTY],
    the storage is zeroed, and the pushes and pops that follow behave as
    on an empty queue.  Nothing but the RX buffer changes. *)
Theorem X1_flush_rx_empties (w : World) (v : Z) (ops : list RingOp) :
  within_capacity ops [] = true →
  UART_Available (UART_FlushRX w) = 0 ∧
  UART_ReadChar (Some v) (UART_FlushRX w)
  = (UART_ERROR_BUFFER_EMPTY, Some v, UART_FlushRX w) ∧
  buffer (rx_buffer (UART_FlushRX w)) = replicate 1024 0 ∧
  rx_run ops (UART_FlushRX w) = queue_run ops [] ∧
  set_rx_buffer (rx_buffer w) (UART_FlushRX w) = w.
Proof.
  intros Hcap. split; [done|]. split; [done|]. split; [done|]. split.
  - apply rx_run_queue_run; [|done|done].
    split; [reflexivity|]. vm_compute. repeat split; congruence.
  - by destruct w.
Qed.

Lemma X1_flush_rx_empties_witness :
  let w := UART_FlushRX (received hello_CRLF world0) in
  UART_Available (received hello_CRLF world0) = 7 ∧
  UART_Available w = 0 ∧
  rx_run [Push 1; Pop; Pop] w = queue_run [Push 1; Pop; Pop] [].
Proof.
  intros w. split; [reflexivity|].
  destruct (X1_flush_rx_empties (received hello_CRLF world0) 0 [Push 1; Pop; Pop])
    as (Hav & _ & _ & Hrun & _); [reflexivity|].
  split; [exact Hav | exact Hrun].
Defined.

(** X2. [UART_Peek] never changes the state, and returns the result code
    and the byte that [UART_ReadChar] returns from the same state: a peek
    followed by a pop yields the same byte.  On a buffer holding [x :: q]
    both return [x]. *)
Theorem X2_peek_agrees_with_read (c : option Z) (w : World) :
  snd (UART_Peek c w) = w ∧
  fst (UART_Peek c w) = fst (UART_ReadChar c w) ∧
  (∀ v x q, rb_wf (rx_buffer w) → rb_contents (rx_buffer w) = x :: q →
     UART_Peek (Some v) w = (UART_SUCCESS, Some x, w) ∧
     fst (UART_ReadChar (Some v) (snd (UART_Peek (Some v) w)))
     = (UART_SUCCESS, Some x)).
Proof.
  split; [|split].
  - unfold UART_Peek. destruct c; [|done]. by destruct (_ =? _).
  - unfold UART_Peek, UART_ReadChar. destruct c; [|done]. by destruct (_ =? _).
  - intros v x q Hwf Hq.
    destruct (rb_advance (rx_buffer w) x q Hwf Hq) as (Hne & Hx & _).
    unfold UART_Peek, UART_ReadChar.
    apply Z.eqb_neq in Hne. rewrite Hne. simpl. rewrite Hne, Hx. done.
Qed.

Lemma X2_peek_agrees_with_read_witness :
  UART_Peek (Some 0) (received hello_CRLF world0)
  = (UART_SUCCESS, Some 104, received hello_CRLF world0) ∧
  fst (UART_ReadChar (Some 0)
         (snd (UART_Peek (Some 0) (received hello_CRLF world0))))
  = (UART_SUCCESS, Some 104).
Proof.
  destruct (X2_peek_agrees_with_read (Some 0) (received hello_CRLF world0))
    as (_ & _ & Hpeek).
  apply (Hpeek 0 104 (List.tl hello_CRLF)); [|reflexivity].
  split; [reflexivity|]. vm_compute. repeat split; congruence.
Defined.

Lemma received_frame bs : ∀ w,
  received bs w = set_rx_buffer (rx_buffer (received bs w)) w.
Proof.
  induction bs as [|c bs IH]; intros w; [by destruct w|].
  unfold received in *. simpl. rewrite IH.
  unfold UART_ISR_Handler. simpl. by destruct (cr1_rxneie w).
Qed.

Lemma received_contents bs : ∀ w,
  rb_wf (rx_buffer w) → cr1_rxneie w = true →
  rb_wf (rx_buffer (received bs w)) ∧
  rb_contents (rx_buffer (received bs w))
  = take 1023 (rb_contents (rx_buffer w) ++ map u8 bs).
Proof.
  induction bs as [|c bs IH]; intros w Hwf Hie.
  - split; [done|]. simpl. rewrite app_nil_r, take_ge; [done|].
    pose proof (rb_contents_bound _ Hwf). unfold_ints. lia.
  - assert (Hstep : UART_ISR_Handler true (Some c) false w
                    = set_rx_buffer (snd (StoreChar (u8 c) (rx_buffer w))) w).
    { unfold UART_ISR_Handler. simpl. by rewrite Hie. }
    unfold received. simpl. rewrite Hstep.
    fold (received bs (set_rx_buffer (snd (StoreChar (u8 c) (rx_buffer w))) w)).
    destruct (IH (set_rx_buffer (snd (StoreChar (u8 c) (rx_buffer w))) w))
      as [Hwf' Hq']; [by apply StoreChar_wf|done|].
    split; [done|]. rewrite Hq'. simpl.
    pose proof (rb_contents_bound _ Hwf) as Hb.
    destruct (decide (Z.of_nat (length (rb_contents (rx_buffer w)))
                      = UART_BUFFER_SIZE - 1)) as [Hfull|Hroom].
    + rewrite StoreChar_full by done. simpl.
      rewrite !take_app_le by (unfold_ints; lia). done.
    + destruct (StoreChar_room (u8 c) (rx_buffer w)) as (b' & Hst & _ & Hqb);
        [done|lia|].
      rewrite Hst. simpl. by rewrite Hqb, <- app_assoc.
Qed.

(** X3. The interrupt handler, receiving the bytes [bs] with RXNEIE set,
    queues them after the unread bytes until 1023 bytes are pending and
    drops every byte that arrives then: the RX buffer holds the oldest
    1023 bytes.  Nothing but the RX buffer changes. *)
Theorem X3_rx_overflow_keeps_oldest (bs : list Z) (w : World) :
  rb_wf (rx_buffer w) → cr1_rxneie w = true →
  rb_wf (rx_buffer (received bs w)) ∧
  rb_contents (rx_buffer (received bs w))
  = take 1023 (rb_contents (rx_buffer w) ++ map u8 bs) ∧
  received bs w = set_rx_buffer (rx_buffer (received bs w)) w.
Proof.
  intros Hwf Hie. destruct (received_contents bs w Hwf Hie) as [Hwf' Hq].
  split; [done|]. split; [done|]. apply received_frame.
Qed.

Lemma world0_rx_wf : rb_wf (rx_buffer world0).
Proof. split; [reflexivity|]. vm_compute. repeat split; congruence. Defined.

Lemma X3_rx_overflow_keeps_oldest_witness :
  rb_contents (rx_buffer (received (replicate 1023 65 ++ [66; 67]) world0))
  = replicate 1023 65.
Proof.
  destruct (X3_rx_overflow_keeps_oldest (replicate 1023 65 ++ [66; 67]) world0)
    as (_ & Hq & _); [exact world0_rx_wf | reflexivity |].
  rewrite Hq. reflexivity.
Defined.

(** X4. From any state, after [UART_RingBuff_Init] up to 1023 bytes
    received by the interrupt handler are obtained back in order by
    [WaitForData] and [UART_ReadChar], after which the RX buffer is empty
    again. *)
Theorem X4_init_receive_read (w : World) (bs : list Z) (timeout_ms : Z) :
  (length bs ≤ 1023)%nat →
  fst (UART_RingBuff_Init w) = UART_SUCCESS ∧
  ∃ w', incoming timeout_ms (received bs (snd (UART_RingBuff_Init w)))
          (map u8 bs) w' ∧
        UART_Available w' = 0.
Proof.
  intros Hlen. split; [done|].
  set (w0 := snd (UART_RingBuff_Init w)).
  assert (Hwf0 : rb_wf (rx_buffer w0)).
  { split; [reflexivity|]. vm_compute. repeat split; congruence. }
  destruct (received_contents bs w0 Hwf0 eq_refl) as [Hwf Hq].
  change (rb_contents (rx_buffer w0)) with (@nil Z) in Hq. simpl in Hq.
  rewrite take_ge in Hq by (rewrite length_map; lia).
  destruct (incoming_pending timeout_ms (map u8 bs) (received bs w0) [])
    as (w' & Hin & Hwf' & Hq' & _); [done|by rewrite app_nil_r|].
  exists w'. split; [done|].
  destruct (UART_Available_wf w' Hwf') as [_ ->]. by rewrite Hq'.
Qed.

Lemma X4_init_receive_read_witness :
  ∃ w', incoming 100 (received [300; 65] (snd (UART_RingBuff_Init world_next_period)))
          [44; 65] w' ∧
        UART_Available w' = 0.
Proof.
  apply (X4_init_receive_read world_next_period [300; 65] 100). simpl. lia.
Defined.

(** ** The transmit path *)

Lemma UART_WriteChar_room fuel c w :
  rb_wf (tx_buffer w) →
  Z.of_nat (length (rb_contents (tx_buffer w))) < UART_BUFFER_SIZE - 1 →
  ∃ b', rb_wf b' ∧ rb_contents b' = rb_contents (tx_buffer w) ++ [c] ∧
        UART_WriteChar (S fuel) c w
        = Some (UART_SUCCESS,
                set_cr1_txeie true (set_tx_buffer b' (ResetTimeout w))).
Proof.
  intros Hwf Hroom.
  destruct (StoreChar_room c (tx_buffer w) Hwf Hroom) as (b' & Hst & Hwf' & Hq').
  exists b'. split; [done|]. split; [done|].
  unfold StoreChar in Hst. unfold UART_WriteChar. simpl.
  change (tx_buffer (ResetTimeout w)) with (tx_buffer w).
  destruct (_ =? tail (tx_buffer w)); [done|].
  by injection Hst as <-.
Qed.

Lemma UART_SendString_loop_room fuel str : ∀ w,
  rb_wf (tx_buffer w) →
  Z.of_nat (length (rb_contents (tx_buffer w)) + length str)
    ≤ UART_BUFFER_SIZE - 1 →
  ∃ w', UART_SendString_loop (S fuel) str w = Some (UART_SUCCESS, w') ∧
        rb_wf (tx_buffer w') ∧
        rb_contents (tx_buffer w') = rb_contents (tx_buffer w) ++ str ∧
        tdr_sent w' = tdr_sent w ∧ rx_buffer w' = rx_buffer w ∧
        ticks w' = ticks w ∧ schedule w' = schedule w ∧
        (str ≠ [] → cr1_txeie w' = true).
Proof.
  induction str as [|c str IH]; intros w Hwf Hroom.
  - exists w. by rewrite app_nil_r.
  - simpl in Hroom.
    destruct (UART_WriteChar_room fuel c w Hwf) as (b' & Hwf' & Hq' & Hwr); [lia|].
    set (w1 := set_cr1_txeie true (set_tx_buffer b' (ResetTimeout w))) in *.
    destruct (IH w1) as (w' & Hrun & Hwf2 & Hq2 & Htdr & Hrx & Ht & Hs & Hie).
    { done. }
    { subst w1. simpl. rewrite Hq', length_app. simpl. lia. }
    exists w'. cbn [UART_SendString_loop]. rewrite Hwr. split; [done|].
    split; [done|]. split.
    { rewrite Hq2. subst w1. simpl. by rewrite Hq', <- app_assoc. }
    repeat split; try done.
    intros _. destruct str as [|c' str]; [|by apply Hie].
    simpl in Hrun. by injection Hrun as <-.
Qed.

(** One TXE interrupt: it sends the oldest byte, or disables itself when
    the TX buffer is empty, or is ignored when TXEIE is clear. *)
Lemma UART_ISR_Handler_txe w :
  rb_wf (tx_buffer w) →
  match rb_contents (tx_buffer w) with
  | x :: q =>
      cr1_txeie w = true →
      let w' := UART_ISR_Handler true None true w in
      tdr_sent w' = tdr_sent w ++ [x] ∧ rb_wf (tx_buffer w') ∧
      rb_contents (tx_buffer w') = q ∧ cr1_txeie w' = true ∧
      rx_buffer w' = rx_buffer w
  | [] =>
      UART_ISR_Handler true None true w = set_cr1_txeie false w
  end.
Proof.
  intros Hwf. destruct (rb_contents (tx_buffer w)) as [|x q] eqn:Hq.
  - assert (He : head (tx_buffer w) = tail (tx_buffer w)).
    { apply rb_pending_0; [done|]. by rewrite <- rb_contents_length, Hq. }
    apply Z.eqb_eq in He. unfold UART_ISR_Handler. simpl. rewrite He.
    destruct (cr1_txeie w) eqn:Hie; [done|]. destruct w. simpl in *. by subst.
  - intros Hie w'. subst w'.
    destruct (rb_advance (tx_buffer w) x q Hwf Hq) as (Hne & Hx & Hwf' & Hq').
    apply Z.eqb_neq in Hne. unfold UART_ISR_Handler. simpl.
    rewrite Hie, Hne. simpl. by rewrite Hx.
Qed.

Lemma tx_interrupts_drain q : ∀ w,
  rb_wf (tx_buffer w) → rb_contents (tx_buffer w) = q → cr1_txeie w = true →
  let w' := tx_interrupts (length q) w in
  tdr_sent w' = tdr_sent w ++ q ∧ rb_wf (tx_buffer w') ∧
  rb_contents (tx_buffer w') = [] ∧ cr1_txeie w' = true ∧
  rx_buffer w' = rx_buffer w.
Proof.
  induction q as [|x q IH]; intros w Hwf Hq Hie; simpl.
  - by rewrite app_nil_r.
  - pose proof (UART_ISR_Handler_txe w Hwf) as Hstep. rewrite Hq in Hstep.
    destruct (Hstep Hie) as (Htdr & Hwf' & Hq' & Hie' & Hrx).
    destruct (IH _ Hwf' Hq' Hie') as (Htdr2 & Hwf2 & Hq2 & Hie2 & Hrx2).
    rewrite Htdr2, Htdr, <- app_assoc, Hrx2, Hrx. done.
Qed.

Lemma tx_interrupts_idle n : ∀ w,
  cr1_txeie w = false → tx_interrupts n w = w.
Proof.
  induction n as [|n IH]; intros w Hie; [done|]. simpl.
  assert (Hstep : UART_ISR_Handler true None true w = w).
  { unfold UART_ISR_Handler. simpl. by rewrite Hie. }
  rewrite Hstep. by apply IH.
Qed.

Lemma tx_interrupts_add n : ∀ m w,
  tx_interrupts (n + m) w = tx_interrupts m (tx_interrupts n w).
Proof. induction n as [|n IH]; intros m w; [done|]. simpl. apply IH. Qed.

(** X5. Transmit round trip.  With room in the TX buffer,
    [UART_SendString] queues the whole string at once and leaves TXEIE
    set; the TXE interrupts that follow write the pending bytes and then
    the string to TDR in order; the next one finds the buffer empty and
    clears TXEIE, after which TXE interrupts change nothing. *)
Theorem X5_tx_round_trip (str : list Z) (w : World) (fuel n : nat) :
  rb_wf (tx_buffer w) → str ≠ [] →
  Z.of_nat (length (rb_contents (tx_buffer w)) + length str)
    ≤ UART_BUFFER_SIZE - 1 →
  ∃ w1,
    UART_SendString (S fuel) (Some str) w = Some (UART_SUCCESS, w1) ∧
    cr1_txeie w1 = true ∧ tdr_sent w1 = tdr_sent w ∧
    rb_contents (tx_buffer w1) = rb_contents (tx_buffer w) ++ str ∧
    let pending := length (rb_contents (tx_buffer w1)) in
    tdr_sent (tx_interrupts pending w1)
    = tdr_sent w ++ rb_contents (tx_buffer w) ++ str ∧
    cr1_txeie (tx_interrupts pending w1) = true ∧
    tdr_sent (tx_interrupts (pending + S n) w1)
    = tdr_sent w ++ rb_contents (tx_buffer w) ++ str ∧
    cr1_txeie (tx_interrupts (pending + S n) w1) = false ∧
    rb_contents (tx_buffer (tx_interrupts (pending + S n) w1)) = [].
Proof.
  intros Hwf Hne Hroom.
  destruct (UART_SendString_loop_room fuel str w Hwf Hroom)
    as (w1 & Hrun & Hwf1 & Hq1 & Htdr & _ & _ & _ & Hie).
  specialize (Hie Hne).
  exists w1. split; [done|]. split; [done|]. split; [done|]. split; [done|].
  intros pending.
  destruct (tx_interrupts_drain _ w1 Hwf1 eq_refl Hie)
    as (Htdr2 & Hwf2 & Hq2 & Hie2 & _).
  fold pending in Htdr2, Hwf2, Hq2, Hie2.
  set (w2 := tx_interrupts pending w1) in *.
  assert (Hlast : tx_interrupts (pending + S n) w1 = set_cr1_txeie false w2).
  { rewrite tx_interrupts_add. fold w2. simpl.
    pose proof (UART_ISR_Handler_txe w2 Hwf2) as Hstep. rewrite Hq2 in Hstep.
    rewrite Hstep. by apply tx_interrupts_idle. }
  rewrite Hlast. simpl. rewrite Htdr2, Htdr, Hq1. done.
Qed.

Lemma world0_tx_wf : rb_wf (tx_buffer world0).
Proof. split; [reflexivity|]. vm_compute. repeat split; congruence. Defined.

Lemma X5_tx_round_trip_witness :
  ∃ w1,
    UART_SendString 1 (Some OK_CRLF) world0 = Some (UART_SUCCESS, w1) ∧
    cr1_txeie w1 = true ∧
    tdr_sent (tx_interrupts 4 w1) = OK_CRLF ∧
    tdr_sent (tx_interrupts 7 w1) = OK_CRLF ∧
    cr1_txeie (tx_interrupts 7 w1) = false.
Proof.
  destruct (X5_tx_round_trip OK_CRLF world0 0 2)
    as (w1 & Hrun & Hie & _ & Hq & Hdrain);
    [exact world0_tx_wf | done | vm_compute; congruence |].
  change (rb_contents (tx_buffer world0)) with (@nil Z) in *.
  rewrite Hq in Hdrain. simpl in Hdrain.
  destruct Hdrain as (Hsent & _ & Hsent' & Hie' & _).
  exists w1. done.
Defined.

(** An interrupt leaves the producer side of the TX buffer alone. *)
Lemma preempt_tx_frame w :
  head (tx_buffer (preempt w)) = head (tx_buffer w) ∧
  buffer (tx_buffer (preempt w)) = buffer (tx_buffer w).
Proof.
  unfold preempt. destruct (schedule w) as [|[|rxne txe] rest]; [done|done|].
  simpl. unfold UART_ISR_Handler. simpl.
  destruct rxne, txe, (cr1_rxneie w), (cr1_txeie w); simpl;
    repeat match goal with |- context [if ?c then _ else _] => destruct c end;
    done.
Qed.

Lemma UART_WriteChar_loop_fuel fuel : ∀ next_head w r fuel',
  UART_WriteChar_loop fuel next_head w = Some r → (fuel ≤ fuel')%nat →
  UART_WriteChar_loop fuel' next_head w = Some r.
Proof.
  induction fuel as [|fuel IH]; intros nh w r fuel' Hrun Hle; [done|].
  destruct fuel' as [|fuel']; [lia|]. simpl in *.
  destruct (nh =? tail (tx_buffer w)); [|done].
  destruct (IsTimeOutExpired DEFAULT_TIMEOUT_MS w); [done|].
  apply (IH _ _ _ _ Hrun). lia.
Qed.

Lemma UART_WriteChar_loop_bounded fuel : ∀ next_head w t0,
  timeout_start w = u32 t0 →
  0 ≤ ticks w - t0 ≤ DEFAULT_TIMEOUT_MS →
  (Z.to_nat (DEFAULT_TIMEOUT_MS - (ticks w - t0)) + length (schedule w)
   < fuel)%nat →
  ∃ r w', UART_WriteChar_loop fuel next_head w = Some (r, w') ∧
          ticks w ≤ ticks w' ∧ ticks w' - t0 ≤ DEFAULT_TIMEOUT_MS ∧
          head (tx_buffer w') = head (tx_buffer w) ∧
          buffer (tx_buffer w') = buffer (tx_buffer w) ∧
          (r = Some UART_ERROR_TIMEOUT ∧ ticks w' - t0 = DEFAULT_TIMEOUT_MS
             ∧ next_head = tail (tx_buffer w')
           ∨ r = None ∧ next_head ≠ tail (tx_buffer w')).
Proof.
  induction fuel as [|fuel IH]; intros nh w t0 Hstart Hel Hfuel; [lia|].
  simpl. destruct (Z.eqb_spec nh (tail (tx_buffer w))) as [Hfull|Hroom].
  - assert (Hexp : IsTimeOutExpired DEFAULT_TIMEOUT_MS w
                   = (DEFAULT_TIMEOUT_MS <=? ticks w - t0)).
    { unfold IsTimeOutExpired, HAL_GetTick. rewrite Hstart. f_equal.
      unfold DEFAULT_TIMEOUT_MS in *. euclid. }
    rewrite Hexp.
    destruct (Z.leb_spec DEFAULT_TIMEOUT_MS (ticks w - t0)) as [Hle|Hlt].
    + exists (Some UART_ERROR_TIMEOUT), w. repeat split; try done; try lia.
      left. repeat split; [lia|done].
    + destruct (preempt_frame w) as (Hs & Ht & Hsched & Hsame).
      destruct (preempt_tx_frame w) as (Hhead & Hbuf).
      destruct (IH nh (preempt w) t0) as (r & w' & Hrun & Hlo & Hhi & Hh & Hb & Hres).
      * by rewrite Hs.
      * lia.
      * destruct (decide (ticks (preempt w) = ticks w)) as [Heq|Hne].
        -- specialize (Hsame Heq). rewrite Heq. lia.
        -- lia.
      * exists r, w'. split; [done|]. split; [lia|]. split; [done|].
        split; [congruence|]. split; [congruence|done].
  - exists None, w. repeat split; try done; try lia. by right.
Qed.

(** X6. [UART_WriteChar] always returns, at most
    [DEFAULT_TIMEOUT_MS] = 500 ms after it was called.  When it reports
    [UART_ERROR_TIMEOUT], exactly 500 ms have passed with the buffer still
    full, and the byte is not queued: [head] and the storage of the TX
    buffer are as before.  When it succeeds the byte is stored at [head],
    [head] moves to the next slot and TXEIE is set. *)
Theorem X6_write_char_bounded (c : Z) (w : World) :
  ∃ k r w',
    (∀ fuel, (k ≤ fuel)%nat → UART_WriteChar fuel c w = Some (r, w')) ∧
    0 ≤ ticks w' - ticks w ≤ DEFAULT_TIMEOUT_MS ∧
    (r = UART_ERROR_TIMEOUT ∧ ticks w' - ticks w = DEFAULT_TIMEOUT_MS ∧
       head (tx_buffer w') = head (tx_buffer w) ∧
       buffer (tx_buffer w') = buffer (tx_buffer w) ∧
       u16 (Z.rem (head (tx_buffer w') + 1) UART_BUFFER_SIZE)
       = tail (tx_buffer w')
     ∨ r = UART_SUCCESS ∧
       head (tx_buffer w')
       = u16 (Z.rem (head (tx_buffer w) + 1) UART_BUFFER_SIZE) ∧
       buffer (tx_buffer w')
       = <[Z.to_nat (head (tx_buffer w)) := c]> (buffer (tx_buffer w)) ∧
       head (tx_buffer w') ≠ tail (tx_buffer w') ∧
       cr1_txeie w' = true).
Proof.
  set (nh := u16 (Z.rem (head (tx_buffer w) + 1) UART_BUFFER_SIZE)).
  set (k := S (Z.to_nat DEFAULT_TIMEOUT_MS + length (schedule w))).
  destruct (UART_WriteChar_loop_bounded k nh (ResetTimeout w) (ticks w))
    as (r & w1 & Hrun & Hlo & Hhi & Hh & Hb & Hres);
    [done | simpl; unfold DEFAULT_TIMEOUT_MS; lia | simpl; lia |].
  simpl in Hlo, Hhi, Hh, Hb.
  destruct Hres as [(-> & Ht & Hfull) | (-> & Hroom)].
  - exists k, UART_ERROR_TIMEOUT, w1. split.
    + intros fuel Hfuel. unfold UART_WriteChar. fold nh.
      by rewrite (UART_WriteChar_loop_fuel k nh _ _ fuel Hrun Hfuel).
    + split; [lia|]. left. rewrite Hh. fold nh. done.
  - eexists k, UART_SUCCESS, _. split.
    + intros fuel Hfuel. unfold UART_WriteChar. fold nh.
      by rewrite (UART_WriteChar_loop_fuel k nh _ _ fuel Hrun Hfuel).
    + simpl. split; [lia|]. right. rewrite Hh, Hb. done.
Qed.

Lemma UART_SendString_loop_app fuel s1 : ∀ s2 w,
  UART_SendString_loop fuel (s1 ++ s2) w
  = match UART_SendString_loop fuel s1 w with
    | Some (UART_SUCCESS, w1) => UART_SendString_loop fuel s2 w1
    | r => r
    end.
Proof.
  induction s1 as [|c s1 IH]; intros s2 w; [done|]. simpl.
  by destruct (UART_WriteChar fuel c w) as [[[] w1]|].
Qed.

(** X7. [UART_SendString] stops at the first byte that [UART_WriteChar]
    refuses and returns that error: the bytes before it stay queued (the
    state is the one the failed write left), the bytes after it are not
    attempted. *)
Theorem X7_send_string_stops_at_first_error
    (fuel : nat) (s1 s2 : list Z) (c : Z) (w w1 w2 : World)
    (e : UART_ErrorTypeDef) :
  UART_SendString fuel (Some s1) w = Some (UART_SUCCESS, w1) →
  UART_WriteChar fuel c w1 = Some (e, w2) → e ≠ UART_SUCCESS →
  UART_SendString fuel (Some (s1 ++ c :: s2)) w = Some (e, w2).
Proof.
  unfold UART_SendString. intros Hs1 Hc He.
  rewrite UART_SendString_loop_app, Hs1. simpl. rewrite Hc.
  by destruct e.
Qed.

Lemma X7_send_string_stops_at_first_error_witness :
  ∃ w2, UART_SendString 502 (Some [65; 66; 67]) world_tx_nearly_full
        = Some (UART_ERROR_TIMEOUT, w2) ∧
        ticks w2 = 500 ∧ head (tx_buffer w2) = 1023 ∧
        default 0 (buffer (tx_buffer w2) !! 1022%nat) = 65.
Proof.
  eexists. split.
  - eapply (X7_send_string_stops_at_first_error 502 [65] [67] 66
              world_tx_nearly_full);
      [vm_compute; reflexivity | vm_compute; reflexivity | discriminate].
  - vm_compute. repeat split; reflexivity.
Defined.

(** ** The indices stay inside the arrays *)

Lemma tail_advance_wf b :
  rb_wf b →
  rb_wf (mkRingBuffer (buffer b) (head b)
           (u16 (Z.rem (tail b + 1) UART_BUFFER_SIZE))).
Proof.
  intros (Hlen & Hh & Ht). rewrite next_index by (unfold_ints; lia).
  split; [done|]. split; [done|]. apply next_index_range.
Qed.

Lemma UART_ISR_Handler_wf i rxne txe w :
  world_wf w → world_wf (UART_ISR_Handler i rxne txe w).
Proof.
  intros [Hrx Htx]. unfold UART_ISR_Handler. destruct i; [|done]. simpl.
  set (w1 := match rxne with
             | Some rdr =>
                 if cr1_rxneie w
                 then set_rx_buffer (StoreChar (u8 rdr) (rx_buffer w)).2 w
                 else w
             | None => w
             end).
  assert (Hw1 : world_wf w1 ∧ tx_buffer w1 = tx_buffer w).
  { subst w1. destruct rxne as [rdr|]; [|done].
    destruct (cr1_rxneie w); [|done]. split; [|done].
    split; [by apply StoreChar_wf|done]. }
  destruct Hw1 as [[Hrx1 Htx1] Heq].
  destruct (txe && cr1_txeie w); [|done].
  destruct (_ =? _); [done|].
  split; [done|]. simpl. by apply tail_advance_wf.
Qed.

Lemma preempt_wf w : world_wf w → world_wf (preempt w).
Proof.
  intros Hwf. unfold preempt.
  destruct (schedule w) as [|[|rxne txe] rest]; [done|done|].
  by apply UART_ISR_Handler_wf.
Qed.

Lemma UART_ReadChar_wf c w : world_wf w → world_wf (snd (UART_ReadChar c w)).
Proof.
  intros [Hrx Htx]. unfold UART_ReadChar. destruct c; [|done].
  destruct (_ =? _); [done|]. split; [|done]. by apply tail_advance_wf.
Qed.

Lemma WaitForData_loop_wf fuel : ∀ timeout_ms w r w',
  WaitForData_loop fuel timeout_ms w = Some (r, w') →
  world_wf w → world_wf w'.
Proof.
  induction fuel as [|fuel IH]; intros T w r w' Hrun Hwf; [done|].
  simpl in Hrun. destruct (UART_Available w =? 0); [|by injection Hrun as _ <-].
  destruct (IsTimeOutExpired T w); [by injection Hrun as _ <-|].
  apply (IH _ _ _ _ Hrun). by apply preempt_wf.
Qed.

Lemma WaitForData_wf fuel timeout_ms w r w' :
  WaitForData fuel timeout_ms w = Some (r, w') → world_wf w → world_wf w'.
Proof. intros Hrun Hwf. by apply (WaitForData_loop_wf _ _ _ _ _ Hrun). Qed.

Lemma UART_WriteChar_loop_wf fuel : ∀ next_head w r w',
  UART_WriteChar_loop fuel next_head w = Some (r, w') →
  world_wf w → world_wf w'.
Proof.
  induction fuel as [|fuel IH]; intros nh w r w' Hrun Hwf; [done|].
  simpl in Hrun.
  destruct (nh =? tail (tx_buffer w)); [|by injection Hrun as _ <-].
  destruct (IsTimeOutExpired DEFAULT_TIMEOUT_MS w); [by injection Hrun as _ <-|].
  apply (IH _ _ _ _ Hrun). by apply preempt_wf.
Qed.

Lemma UART_WriteChar_wf fuel c w r w' :
  UART_WriteChar fuel c w = Some (r, w') → world_wf w → world_wf w'.
Proof.
  unfold UART_WriteChar. intros Hrun Hwf.
  destruct (UART_WriteChar_loop fuel _ (ResetTimeout w)) as [[[e|] w1]|] eqn:Hloop;
    [| |done].
  - injection Hrun as _ <-. by apply (UART_WriteChar_loop_wf _ _ _ _ _ Hloop).
  - injection Hrun as _ <-.
    destruct (UART_WriteChar_loop_wf _ _ _ _ _ Hloop Hwf) as [Hrx (Hlen & Hh & Ht)].
    destruct Hwf as [_ (_ & Hh0 & _)].
    split; [done|]. unfold set_cr1_txeie, set_tx_buffer. cbn [tx_buffer].
    split; [|split]; cbn [buffer head tail]; [|  |done].
    + by rewrite length_insert.
    + rewrite next_index by (unfold_ints; lia). apply next_index_range.
Qed.

Lemma UART_SendString_loop_wf fuel str : ∀ w r w',
  UART_SendString_loop fuel str w = Some (r, w') → world_wf w → world_wf w'.
Proof.
  induction str as [|c str IH]; intros w r w' Hrun Hwf.
  - by injection Hrun as _ <-.
  - simpl in Hrun.
    destruct (UART_WriteChar fuel c w) as [[e w1]|] eqn:Hwr; [|done].
    pose proof (UART_WriteChar_wf _ _ _ _ _ Hwr Hwf) as Hwf1.
    destruct e; try (by injection Hrun as _ <-). by apply (IH _ _ _ Hrun).
Qed.

Lemma UART_WaitForString_loop_wf fuel : ∀ str str_len m timeout_ms w r w',
  UART_WaitForString_loop fuel str str_len m timeout_ms w = Some (r, w') →
  world_wf w → world_wf w'.
Proof.
  induction fuel as [|fuel IH]; intros str L m T w r w' Hrun Hwf; [done|].
  cbn [UART_WaitForString_loop] in Hrun.
  destruct (m <? L); [|by injection Hrun as _ <-].
  destruct (WaitForData fuel T w) as [[e w1]|] eqn:Hwait; [|done].
  pose proof (WaitForData_wf _ _ _ _ _ Hwait Hwf) as Hwf1.
  destruct e; try (by injection Hrun as _ <-).
  pose proof (UART_ReadChar_wf (Some 0) w1 Hwf1) as Hwf2.
  destruct (UART_ReadChar (Some 0) w1) as [[e2 c] w2]. simpl in Hwf2.
  destruct e2; try (by apply (IH _ _ _ _ _ _ _ Hrun)).
  apply (IH _ _ _ _ _ _ _ Hrun). by destruct (0 <? _).
Qed.

Lemma UART_CopyUntil_loop_wf fuel :
  ∀ end_str dest size str_len pos m timeout_ms w r dest' w',
  UART_CopyUntil_loop fuel end_str dest size str_len pos m timeout_ms w
  = Some (r, dest', w') →
  world_wf w → world_wf w'.
Proof.
  induction fuel as [|fuel IH];
    intros end_str dest size L pos m T w r dest' w' Hrun Hwf; [done|].
  cbn [UART_CopyUntil_loop] in Hrun.
  destruct (pos <? sz (size - 1)); [|by injection Hrun as _ _ <-].
  destruct (WaitForData fuel T w) as [[e w1]|] eqn:Hwait; [|done].
  pose proof (WaitForData_wf _ _ _ _ _ Hwait Hwf) as Hwf1.
  destruct e; try (by injection Hrun as _ _ <-).
  pose proof (UART_ReadChar_wf (Some 0) w1 Hwf1) as Hwf2.
  destruct (UART_ReadChar (Some 0) w1) as [[e2 c] w2]. simpl in Hwf2.
  destruct e2; try (by apply (IH _ _ _ _ _ _ _ _ _ _ _ Hrun)).
  destruct (_ =? str_at end_str m).
  - destruct (_ =? L); [by injection Hrun as _ _ <-|].
    by apply (IH _ _ _ _ _ _ _ _ _ _ _ Hrun).
  - destruct (_ =? str_at end_str 0); by apply (IH _ _ _ _ _ _ _ _ _ _ _ Hrun).
Qed.

(** X8. Both ring buffers keep their storage of 1024 bytes and their
    indices below 1024: [UART_RingBuff_Init] establishes this from any
    state, and every interrupt and every public function preserves it, so
    no access to [buffer] is ever out of bounds. *)
Theorem X8_buffers_stay_well_formed (w : World) :
  world_wf (snd (UART_RingBuff_Init w)) ∧
  (world_wf w →
   world_wf (UART_FlushRX w) ∧
   (∀ e, world_wf (interrupt e w)) ∧
   (∀ c, world_wf (snd (UART_ReadChar c w)) ∧ world_wf (snd (UART_Peek c w))) ∧
   (∀ fuel c r w', UART_WriteChar fuel c w = Some (r, w') → world_wf w') ∧
   (∀ fuel str r w', UART_SendString fuel str w = Some (r, w') → world_wf w') ∧
   (∀ fuel str timeout_ms r w',
      UART_WaitForString fuel str timeout_ms w = Some (r, w') → world_wf w') ∧
   (∀ fuel end_str dest size timeout_ms r dest' w',
      UART_CopyUntil fuel end_str dest size timeout_ms w = Some (r, dest', w') →
      world_wf w')).
Proof.
  split.
  { split; (split; [reflexivity|]); vm_compute; repeat split; congruence. }
  intros Hwf. split; [|split; [|split; [|split; [|split; [|split]]]]].
  - destruct Hwf as [_ Htx]. split; [|done].
    split; [reflexivity|]. vm_compute. repeat split; congruence.
  - intros [|rxne txe]; [done|]. by apply UART_ISR_Handler_wf.
  - intros c. split; [by apply UART_ReadChar_wf|].
    unfold UART_Peek. destruct c; [|done]. by destruct (_ =? _).
  - intros fuel c r w' Hrun. by apply (UART_WriteChar_wf _ _ _ _ _ Hrun).
  - intros fuel [str|] r w' Hrun; [|by injection Hrun as _ <-].
    by apply (UART_SendString_loop_wf _ _ _ _ _ Hrun).
  - intros fuel [str|] T r w' Hrun; [|by injection Hrun as _ <-].
    unfold UART_WaitForString in Hrun.
    destruct (strlen str =? 0); [by injection Hrun as _ <-|].
    by apply (UART_WaitForString_loop_wf _ _ _ _ _ _ _ _ Hrun).
  - intros fuel end_str dest size T r dest' w' Hrun.
    unfold UART_CopyUntil in Hrun.
    destruct end_str as [e|]; [|by injection Hrun as _ _ <-].
    destruct dest as [d|]; [|by injection Hrun as _ _ <-].
    destruct (size =? 0); [by injection Hrun as _ _ <-|].
    destruct (UART_CopyUntil_loop _ _ _ _ _ _ _ _ _) as [[[e' d''] w'']|] eqn:Hloop;
      [|done].
    injection Hrun as _ _ <-.
    by apply (UART_CopyUntil_loop_wf _ _ _ _ _ _ _ _ _ _ _ _ Hloop).
Qed.

Lemma world0_wf : world_wf world0.
Proof. split; [exact world0_rx_wf | exact world0_tx_wf]. Defined.

Lemma X8_buffers_stay_well_formed_witness :
  world_wf (interrupt (Usart (Some 65) true) world0) ∧
  world_wf (snd (UART_ReadChar (Some 0) world0)).
Proof.
  destruct (X8_buffers_stay_well_formed world0) as [_ Hkeep].
  destruct (Hkeep world0_wf) as (_ & Hint & Hread & _).
  split; [apply Hint | apply Hread].
Defined.

(** ** [UART_CopyUntil]: what it writes *)

Lemma UART_CopyUntil_loop_frame fuel :
  ∀ end_str dest size str_len pos m timeout_ms w r dest' w',
  0 ≤ pos ≤ size - 1 → size ≤ SIZE_MAX →
  UART_CopyUntil_loop fuel end_str dest size str_len pos m timeout_ms w
  = Some (r, dest', w') →
  length dest' = length dest ∧
  drop (Z.to_nat size) dest' = drop (Z.to_nat size) dest.
Proof.
  induction fuel as [|fuel IH];
    intros end_str dest size L pos m T w r dest' w' Hpos Hmax Hrun; [done|].
  cbn [UART_CopyUntil_loop] in Hrun.
  rewrite (sz_small (size - 1)) in Hrun by lia.
  assert (Hins : ∀ (i x : Z) (l : list Z), 0 ≤ i ≤ size - 1 →
            length (<[Z.to_nat i := x]> l) = length l ∧
            drop (Z.to_nat size) (<[Z.to_nat i := x]> l) = drop (Z.to_nat size) l).
  { intros i x l Hi. rewrite length_insert, drop_insert_lt by lia. done. }
  destruct (Z.ltb_spec pos (size - 1)) as [Hlt|Hge].
  - destruct (WaitForData fuel T w) as [[e w1]|]; [|done].
    destruct e; try (by injection Hrun as _ <- _).
    destruct (UART_ReadChar (Some 0) w1) as [[e2 c] w2].
    destruct e2; try (by apply (IH _ _ _ _ _ _ _ _ _ _ _ Hpos Hmax Hrun)).
    rewrite (sz_small (pos + 1)) in Hrun by lia.
    destruct (Hins pos (default 0 c) dest) as [Hl Hd]; [lia|].
    assert (Hnext : ∀ m', UART_CopyUntil_loop fuel end_str
                            (<[Z.to_nat pos := default 0 c]> dest) size L
                            (pos + 1) m' T w2 = Some (r, dest', w') →
                          length dest' = length dest ∧
                          drop (Z.to_nat size) dest' = drop (Z.to_nat size) dest).
    { intros m' Hgo. assert (Hp1 : 0 ≤ pos + 1 ≤ size - 1) by lia.
      destruct (IH _ _ _ _ _ _ _ _ _ _ _ Hp1 Hmax Hgo) as [-> ->]. done. }
    destruct (_ =? str_at end_str m).
    + destruct (_ =? L); [|by apply (Hnext _ Hrun)].
      injection Hrun as _ <- _.
      destruct (Hins (pos + 1) 0 (<[Z.to_nat pos := default 0 c]> dest))
        as [-> ->]; [lia|]. done.
    + destruct (_ =? str_at end_str 0); by apply (Hnext _ Hrun).
  - injection Hrun as _ <- _. apply Hins. lia.
Qed.

(** X9. Whatever arrives and however the call ends, [UART_CopyUntil]
    writes only inside the first [buffer_size] bytes of the destination:
    the array keeps its length and every byte from index [buffer_size] on
    is as before. *)
Theorem X9_copy_until_stays_in_bounds (fuel : nat) (end_str dest : list Z)
    (buffer_size timeout_ms : Z) (w : World)
    (r : UART_ErrorTypeDef) (dest' : option (list Z)) (w' : World) :
  0 < buffer_size ≤ Z.of_nat (length dest) → buffer_size ≤ SIZE_MAX →
  UART_CopyUntil fuel (Some end_str) (Some dest) buffer_size timeout_ms w
  = Some (r, dest', w') →
  ∃ d', dest' = Some d' ∧ length d' = length dest ∧
        drop (Z.to_nat buffer_size) d' = drop (Z.to_nat buffer_size) dest.
Proof.
  intros Hsize Hmax Hrun. unfold UART_CopyUntil in Hrun.
  destruct (Z.eqb_spec buffer_size 0) as [?|_]; [lia|].
  destruct (UART_CopyUntil_loop _ _ _ _ _ _ _ _ _) as [[[e d'] w1]|] eqn:Hloop;
    [|done].
  injection Hrun as _ <- _. exists d'. split; [done|].
  assert (Hp0 : 0 ≤ 0 ≤ buffer_size - 1) by lia.
  by apply (UART_CopyUntil_loop_frame _ _ _ _ _ _ _ _ _ _ _ _ Hp0 Hmax Hloop).
Qed.

Lemma X9_copy_until_stays_in_bounds_witness :
  ∃ d', length d' = 16%nat ∧ drop 8 d' = replicate 8 255.
Proof.
  destruct (X9_copy_until_stays_in_bounds 20 CRLF (replicate 16 255) 8 200
              (received (replicate 20 65) world0)
              UART_ERROR_BUFFER_FULL
              (Some (replicate 7 65 ++ 0 :: replicate 8 255))
              (snd (default (UART_SUCCESS, None, world0)
                      (UART_CopyUntil 20 (Some CRLF) (Some (replicate 16 255))
                         8 200 (received (replicate 20 65) world0)))))
    as (d' & _ & Hlen & Hdrop);
    [vm_compute; split; congruence | vm_compute; congruence
    | vm_compute; reflexivity |].
  exists d'. split; [exact Hlen | exact Hdrop].
Defined.

(** X10. When the wait for the next byte times out, [UART_CopyUntil]
    returns [UART_ERROR_TIMEOUT] with the bytes obtained so far left in
    the destination and no terminator written after them: the rest of
    the destination is as the caller passed it. *)
Theorem X10_copy_until_timeout_keeps_partial (end_str dest bs : list Z)
    (buffer_size timeout_ms : Z) (w w' w1 : World) (f : nat) :
  incoming timeout_ms w bs w' →
  first_report end_str 0 bs = None →
  Z.of_nat (length bs) < buffer_size - 1 →
  buffer_size ≤ Z.of_nat (length dest) → buffer_size ≤ SIZE_MAX →
  WaitForData f timeout_ms w' = Some (UART_ERROR_TIMEOUT, w1) →
  ∃ k, ∀ fuel, (k ≤ fuel)%nat →
    UART_CopyUntil fuel (Some end_str) (Some dest) buffer_size timeout_ms w
    = Some (UART_ERROR_TIMEOUT, Some (bs ++ drop (length bs) dest), w1).
Proof.
  intros Hin Hnone Hroom Hdest Hmax Hwait.
  assert (Hsize : 0 < buffer_size ≤ SIZE_MAX) by lia.
  set (wf := match bs with [] => ResetTimeout w | _ => w' end).
  assert (Hin' : incoming timeout_ms (ResetTimeout w) bs wf).
  { subst wf. destruct bs; [constructor|by apply incoming_set_timeout_start]. }
  assert (Hwait' : WaitForData f timeout_ms wf = Some (UART_ERROR_TIMEOUT, w1)).
  { subst wf. destruct bs; [|done]. inversion Hin; subst. done. }
  destruct (UART_CopyUntil_loop_feed end_str buffer_size timeout_ms Hsize
              bs (ResetTimeout w) wf dest 0%nat 0 Hin')
    as [k Hk]; [done|simpl; lia|].
  exists (k `max` (length bs + S f))%nat. intros fuel Hfuel.
  unfold UART_CopyUntil.
  destruct (Z.eqb_spec buffer_size 0) as [?|_]; [lia|].
  pose proof (Hk fuel ltac:(lia)) as Hrun. change (Z.of_nat 0) with 0 in Hrun.
  rewrite Hrun.
  destruct (fuel - length bs)%nat as [|fuel'] eqn:Hrest; [lia|].
  cbn [UART_CopyUntil_loop]. rewrite (sz_small (buffer_size - 1)) by lia.
  simpl (0 + length bs)%nat.
  destruct (Z.ltb_spec (Z.of_nat (length bs)) (buffer_size - 1)) as [_|?]; [|lia].
  rewrite (WaitForData_fuel f fuel' timeout_ms wf _ Hwait') by lia.
  rewrite store_bytes_app by (simpl; lia). done.
Qed.

Lemma X10_copy_until_timeout_keeps_partial_witness :
  ∃ k w1, ∀ fuel, (k ≤ fuel)%nat →
    UART_CopyUntil fuel (Some CRLF) (Some (replicate 16 255)) 16 200
      (received (take 5 hello_CRLF) world0)
    = Some (UART_ERROR_TIMEOUT,
            Some (take 5 hello_CRLF ++ replicate 11 255), w1).
Proof.
  destruct (received_wf (take 5 hello_CRLF)) as [Hwf Hq]; [simpl; lia|].
  destruct (incoming_pending 200 (take 5 hello_CRLF)
              (received (take 5 hello_CRLF) world0) [])
    as (w' & Hin & Hwf' & Hq' & _ & Hs); [exact Hwf | exact Hq |].
  destruct (WaitForData_idle 200 ltac:(vm_compute; split; congruence) w')
    as (w1 & Hidle & _).
  { destruct (UART_Available_wf w' Hwf') as [_ ->]. by rewrite Hq'. }
  { by rewrite Hs. }
  destruct (X10_copy_until_timeout_keeps_partial CRLF (replicate 16 255)
              (take 5 hello_CRLF) 16 200 _ w' w1 201 Hin)
    as [k Hk];
    [reflexivity | vm_compute; congruence | vm_compute; congruence
    | vm_compute; congruence | apply Hidle; simpl; lia |].
  exists k, w1. exact Hk.
Defined.

(** ** [UART_ExtractBetween] and [FindStringInBuffer]: bounds *)

Lemma memcpy_frame n : ∀ dest src k,
  (n ≤ k)%nat →
  length (memcpy dest src n) = length dest ∧
  drop k (memcpy dest src n) = drop k dest.
Proof.
  induction n as [|n IH]; intros dest src k Hk; [by destruct dest|].
  destruct dest as [|y dest]; [done|]. destruct src as [|x src]; [done|].
  destruct k as [|k]; [lia|]. simpl.
  destruct (IH dest src k) as [-> ->]; [lia|done].
Qed.

(** X11. Whatever the strings, [UART_ExtractBetween] writes only inside
    the first [dest_size] bytes of the destination: the array keeps its
    length and every byte from index [dest_size] on is as before; and on
    success a NUL has been written below index [dest_size]. *)
Theorem X11_extract_between_stays_in_bounds
    (start_str end_str source : option (list Z)) (dest : list Z)
    (dest_size : Z) :
  0 < dest_size ≤ Z.of_nat (length dest) → dest_size ≤ SIZE_MAX →
  ∃ d', snd (UART_ExtractBetween start_str end_str source (Some dest) dest_size)
        = Some d' ∧
        length d' = length dest ∧
        drop (Z.to_nat dest_size) d' = drop (Z.to_nat dest_size) dest ∧
        (fst (UART_ExtractBetween start_str end_str source (Some dest) dest_size)
         = UART_SUCCESS →
         ∃ n, (n < Z.to_nat dest_size)%nat ∧ d' !! n = Some 0).
Proof.
  intros Hsize Hmax. unfold UART_ExtractBetween.
  destruct start_str as [start|], end_str as [end_s|], source as [src|];
    try (by exists dest).
  destruct (dest_size =? 0); [by exists dest|].
  destruct (_ =? SIZE_MAX); [by exists dest|].
  destruct (_ =? SIZE_MAX); [by exists dest|].
  match goal with
  | |- context [Z.to_nat (if dest_size <=? ?x then _ else _)] =>
      set (raw := x);
      set (copy_len := Z.to_nat (if dest_size <=? raw
                                 then sz (dest_size - 1) else raw))
  end.
  assert (Hcl : (copy_len < Z.to_nat dest_size)%nat).
  { subst copy_len. destruct (Z.leb_spec dest_size raw).
    - rewrite sz_small by lia. lia.
    - assert (0 ≤ raw) by (subst raw; unfold sz; apply Z.mod_pos_bound; done).
      lia. }
  match goal with
  | |- context [memcpy dest ?s copy_len] =>
      destruct (memcpy_frame copy_len dest s (Z.to_nat dest_size)) as [Hl Hd];
        [lia|]
  end.
  eexists. split; [reflexivity|].
  rewrite length_insert, drop_insert_lt by lia. split; [done|]. split; [done|].
  intros _. exists copy_len. split; [done|].
  apply list_lookup_insert_eq. rewrite Hl. lia.
Qed.

Lemma X11_extract_between_stays_in_bounds_witness :
  ∃ d', snd (UART_ExtractBetween (Some tag_a) (Some tag_a_end) (Some x_a_42_a_y)
               (Some (replicate 8 255)) 2) = Some d' ∧
        length d' = 8%nat ∧ drop 2 d' = replicate 6 255.
Proof.
  destruct (X11_extract_between_stays_in_bounds (Some tag_a) (Some tag_a_end)
              (Some x_a_42_a_y) (replicate 8 255) 2)
    as (d' & Hd & Hlen & Hdrop & _);
    [vm_compute; split; congruence | vm_compute; congruence |].
  exists d'. split; [exact Hd|]. split; [exact Hlen | exact Hdrop].
Defined.

Lemma FindStringInBuffer_loop_result str buf n :
  str ≠ [] → strlen buf ≤ SIZE_MAX → (length str ≤ length buf)%nat →
  ∀ i, (i + n ≤ length buf - length str + 1)%nat →
  let r := FindStringInBuffer_loop n (Z.of_nat i) str buf (strlen str) in
  (r = SIZE_MAX ∧ ∀ j, (i ≤ j < i + n)%nat → ¬ occurs_at str buf j) ∨
  (∃ k, r = Z.of_nat k ∧ (i ≤ k < i + n)%nat ∧ occurs_at str buf k ∧
        ∀ j, (i ≤ j < k)%nat → ¬ occurs_at str buf j).
Proof.
  intros Hne Hfit Hshort. pose proof (str_length_pos str Hne) as Hpos.
  induction n as [|n IH]; intros i Hbound r.
  - left. split; [done|]. intros j Hj. lia.
  - subst r. simpl. rewrite memcmp_at by (try done; lia).
    destruct (decide (occurs_at str buf i)) as [Hocc|Hno].
    + rewrite bool_decide_eq_true_2 by done. right. exists i.
      split; [done|]. split; [lia|]. split; [done|]. intros j Hj. lia.
    + rewrite bool_decide_eq_false_2 by done.
      replace (sz (Z.of_nat i + 1)) with (Z.of_nat (S i))
        by (rewrite sz_small; [lia|]; unfold strlen in Hfit; lia).
      destruct (IH (S i)) as [[Hr Habs]|(k & Hr & Hk & Hocc & Hfirst)]; [lia| |].
      * left. split; [done|]. intros j Hj.
        destruct (decide (j = i)) as [->|Hji]; [done|]. apply Habs. lia.
      * right. exists k. split; [done|]. split; [lia|]. split; [done|].
        intros j Hj. destruct (decide (j = i)) as [->|Hji]; [done|].
        apply Hfirst. lia.
Qed.

(** X12. [FindStringInBuffer] returns [SIZE_MAX] exactly when an argument
    is NULL, the string is empty, or it does not occur in the buffer;
    otherwise it returns the index of the first occurrence, which lies
    with the whole match inside the buffer. *)
Theorem X12_find_string_first_occurrence (str buf : list Z) :
  strlen buf ≤ SIZE_MAX →
  (∀ b n, FindStringInBuffer None b n = SIZE_MAX) ∧
  (∀ s n, FindStringInBuffer s None n = SIZE_MAX) ∧
  let r := FindStringInBuffer (Some str) (Some buf) (strlen buf) in
  (r = SIZE_MAX ∧ (str = [] ∨ absent str buf)) ∨
  (∃ k, r = Z.of_nat k ∧ r ≠ SIZE_MAX ∧ str ≠ [] ∧ first_at str buf k ∧
        (k + length str ≤ length buf)%nat).
Proof.
  intros Hfit. split; [done|]. split; [by intros [s|]|]. intros r. subst r.
  unfold FindStringInBuffer.
  destruct (Z.eqb_spec (strlen str) 0) as [H0|H0].
  { left. split; [done|]. left. unfold strlen in H0. by destruct str. }
  assert (Hne : str ≠ []) by (by intros ->).
  destruct (Z.ltb_spec (strlen buf) (strlen str)) as [Hlong|Hshort]; simpl.
  { left. split; [done|]. right. intros j Hocc.
    pose proof (occurs_at_bound _ _ _ Hne Hocc). unfold strlen in Hlong. lia. }
  unfold strlen in Hshort, Hfit, H0.
  replace (Z.to_nat (sz (strlen buf - strlen str) + 1))
    with (length buf - length str + 1)%nat
    by (unfold strlen; rewrite sz_small; lia).
  destruct (FindStringInBuffer_loop_result str buf (length buf - length str + 1)
              Hne Hfit ltac:(lia) 0%nat ltac:(lia))
    as [[Hr Habs]|(k & Hr & Hk & Hocc & Hfirst)].
  - left. split; [done|]. right. intros j Hocc.
    pose proof (occurs_at_bound _ _ _ Hne Hocc). apply (Habs j); [lia|done].
  - right. exists k. split; [done|].
    pose proof (occurs_at_bound _ _ _ Hne Hocc) as Hkb.
    change (Z.of_nat 0) with 0 in Hr. rewrite Hr.
    split; [unfold SIZE_MAX in *; lia|]. split; [done|]. split; [|done].
    split; [done|]. intros j Hj. apply Hfirst. lia.
Qed.

Lemma X12_find_string_first_occurrence_witness :
  FindStringInBuffer (Some tag_a) (Some x_a_42_a_y) (strlen x_a_42_a_y) = 1 ∧
  first_at tag_a x_a_42_a_y 1.
Proof.
  destruct (X12_find_string_first_occurrence tag_a x_a_42_a_y)
    as (_ & _ & [[Hr _]|(k & Hr & _ & _ & Hfirst & _)]);
    [vm_compute; congruence | vm_compute in Hr; discriminate |].
  change (FindStringInBuffer _ _ _) with 1 in Hr.
  assert (k = 1%nat) as -> by lia.
  split; [reflexivity | exact Hfirst].
Defined.

(** ** The matcher on a pattern that overlaps itself *)

Lemma aab_run_from_1 a b k :
  a ≠ b →
  first_report [a; a; b] 1 (replicate (2 * k) a ++ [b]) = None ∧
  match_run [a; a; b] 1 (replicate (2 * k) a ++ [b]) = 0.
Proof.
  intros Hab.
  assert (Hba : (b =? a) = false) by (apply Z.eqb_neq; congruence).
  assert (Hab' : (a =? b) = false) by (by apply Z.eqb_neq).
  induction k as [|k IH].
  - simpl. unfold reported, match_step, str_at. simpl. by rewrite Hba.
  - replace (2 * S k)%nat with (S (S (2 * k))) by lia.
    cbn [replicate app first_report match_run].
    assert (Hs1 : match_step [a; a; b] 1 a = 2).
    { unfold match_step, str_at. simpl. by rewrite Z.eqb_refl. }
    assert (Hr1 : reported [a; a; b] 1 a = false).
    { unfold reported, str_at. simpl. by rewrite Z.eqb_refl. }
    assert (Hs2 : match_step [a; a; b] 2 a = 1).
    { unfold match_step, str_at. simpl. by rewrite Hab', Z.eqb_refl. }
    assert (Hr2 : reported [a; a; b] 2 a = false).
    { unfold reported, str_at. simpl. by rewrite Hab'. }
    rewrite Hr1, Hs1, Hr2, Hs2. destruct IH as [-> ->]. done.
Qed.

(** X13. The matcher does not backtrack, and so it can miss the pattern:
    for the pattern "aab" (any two distinct bytes) and the stream of an
    odd number (at least three) of "a" followed by "b", which ends with
    the pattern, no match is ever reported, and [UART_WaitForString] fed
    exactly that stream consumes it and returns [UART_ERROR_TIMEOUT]. *)
Theorem X13_matcher_misses_overlap (a b timeout_ms : Z) (k : nat) (w : World) :
  a ≠ b →
  let stream := replicate (2 * k + 3) a ++ [b] in
  occurs_at [a; a; b] stream (2 * k + 1) ∧
  first_report [a; a; b] 0 stream = None ∧
  (rb_wf (rx_buffer w) → rb_contents (rx_buffer w) = stream →
   schedule w = [] → 0 ≤ timeout_ms < 2 ^ 32 →
   ∃ n w', (∀ fuel, (n ≤ fuel)%nat →
              UART_WaitForString fuel (Some [a; a; b]) timeout_ms w
              = Some (UART_ERROR_TIMEOUT, w')) ∧
           UART_Available w' = 0).
Proof.
  intros Hab stream.
  assert (Hrun : first_report [a; a; b] 0 stream = None ∧
                 match_run [a; a; b] 0 stream = 0).
  { subst stream. replace (2 * k + 3)%nat with (S (2 * (S k))) by lia.
    cbn [replicate app first_report match_run].
    assert (Hs0 : match_step [a; a; b] 0 a = 1).
    { unfold match_step, str_at. simpl. by rewrite Z.eqb_refl. }
    assert (Hr0 : reported [a; a; b] 0 a = false).
    { unfold reported, str_at. simpl. by rewrite Z.eqb_refl. }
    rewrite Hr0, Hs0. destruct (aab_run_from_1 a b (S k) Hab) as [-> ->]. done. }
  destruct Hrun as [Hnone Hrun]. split; [|split; [done|]].
  - unfold occurs_at. subst stream.
    replace (2 * k + 3)%nat with ((2 * k + 1) + 2)%nat by lia.
    rewrite replicate_add, <- app_assoc.
    rewrite drop_app_length' by (by rewrite length_replicate). done.
  - intros Hwf Hq Hs HT.
    destruct (incoming_pending timeout_ms stream w [])
      as (w1 & Hin & Hwf1 & Hq1 & _ & Hs1); [done|by rewrite app_nil_r|].
    assert (Hav1 : UART_Available w1 = 0).
    { destruct (UART_Available_wf w1 Hwf1) as [_ ->]. by rewrite Hq1. }
    destruct (WaitForData_idle timeout_ms HT w1 Hav1 ltac:(by rewrite Hs1))
      as (w' & Hidle & Ht).
    destruct (UART_WaitForString_feed [a; a; b] ltac:(done)
                ltac:(vm_compute; congruence) timeout_ms stream w w1 Hin Hnone)
      as [n Hn].
    exists (n `max` (length stream + S (S (Z.to_nat timeout_ms))))%nat, w'.
    split.
    + intros fuel Hfuel. rewrite Hn by lia. rewrite Hrun.
      assert (Hfin : match stream with
                     | [] => ResetTimeout w
                     | _ => settle 0 w1
                     end = w1).
      { subst stream. by replace (2 * k + 3)%nat with (S (2 * k + 2)) by lia. }
      rewrite Hfin.
      destruct (fuel - length stream)%nat as [|fuel'] eqn:Hrest; [lia|].
      cbn [UART_WaitForString_loop]. simpl (0 <? strlen [a; a; b]).
      by rewrite Hidle by lia.
    + assert (Hloop : WaitForData (S (Z.to_nat timeout_ms)) timeout_ms w1
                      = Some (UART_ERROR_TIMEOUT, w')) by (apply Hidle; lia).
      destruct (WaitForData_bounded timeout_ms w1 HT)
        as (n0 & r & w2 & Hall & _ & Hres).
      pose proof (Hall (n0 `max` S (Z.to_nat timeout_ms))%nat ltac:(lia)) as H2.
      rewrite (WaitForData_fuel _ _ _ _ _ Hloop) in H2 by lia.
      injection H2 as <- <-. by destruct Hres as [(_ & _ & ?)|[? _]].
Qed.

Lemma X13_matcher_misses_overlap_witness :
  ∃ n w', ∀ fuel, (n ≤ fuel)%nat →
    UART_WaitForString fuel (Some [65; 65; 66]) 50
      (received [65; 65; 65; 66] world0)
    = Some (UART_ERROR_TIMEOUT, w').
Proof.
  destruct (X13_matcher_misses_overlap 65 66 50 0 (received [65; 65; 65; 66] world0))
    as (_ & _ & Hrun); [discriminate|].
  destruct (received_wf [65; 65; 65; 66]) as [Hwf Hq]; [simpl; lia|].
  destruct (Hrun Hwf Hq eq_refl) as (n & w' & Hn & _);
    [vm_compute; split; congruence|].
  exists n, w'. exact Hn.
Defined.

(** ** Who writes what *)

Lemma UART_ISR_Handler_roles i rxne txe w :
  let w' := UART_ISR_Handler i rxne txe w in
  tail (rx_buffer w') = tail (rx_buffer w) ∧
  head (tx_buffer w') = head (tx_buffer w) ∧
  buffer (tx_buffer w') = buffer (tx_buffer w).
Proof.
  unfold UART_ISR_Handler.
  destruct i, rxne, txe, (cr1_rxneie w), (cr1_txeie w); simpl;
    unfold StoreChar;
    repeat match goal with |- context [if ?c then _ else _] => destruct c end;
    done.
Qed.

Lemma preempt_roles w :
  tail (rx_buffer (preempt w)) = tail (rx_buffer w) ∧
  head (tx_buffer (preempt w)) = head (tx_buffer w) ∧
  buffer (tx_buffer (preempt w)) = buffer (tx_buffer w).
Proof.
  unfold preempt. destruct (schedule w) as [|[|rxne txe] rest]; [done|done|].
  apply (UART_ISR_Handler_roles true rxne txe (set_schedule rest w)).
Qed.

Lemma WaitForData_loop_roles fuel : ∀ timeout_ms w r w',
  WaitForData_loop fuel timeout_ms w = Some (r, w') →
  tail (rx_buffer w') = tail (rx_buffer w) ∧
  tx_buffer w' = tx_buffer w ∨
  tail (rx_buffer w') = tail (rx_buffer w) ∧
  head (tx_buffer w') = head (tx_buffer w) ∧
  buffer (tx_buffer w') = buffer (tx_buffer w).
Proof.
  induction fuel as [|fuel IH]; intros T w r w' Hrun; [done|].
  simpl in Hrun.
  destruct (UART_Available w =? 0); [|injection Hrun as _ <-; by left].
  destruct (IsTimeOutExpired T w); [injection Hrun as _ <-; by left|].
  destruct (preempt_roles w) as (Ht & Hh & Hb). right.
  destruct (IH _ _ _ _ Hrun) as [[Ht' Htx]|(Ht' & Hh' & Hb')].
  - rewrite Ht', Htx. done.
  - rewrite Ht', Hh', Hb'. done.
Qed.

(** X14. Single writer per index.  An interrupt never moves the RX [tail]
    nor the TX [head], and never writes the TX storage; [UART_ReadChar]
    never moves the RX [head], never writes the RX storage and leaves the
    TX buffer alone; and [WaitForData], whatever interrupts it lets in,
    returns with the RX [tail] and the TX [head] and storage where they
    were: it consumes nothing. *)
Theorem X14_single_writer_per_index (w : World) :
  (∀ e, tail (rx_buffer (interrupt e w)) = tail (rx_buffer w) ∧
        head (tx_buffer (interrupt e w)) = head (tx_buffer w) ∧
        buffer (tx_buffer (interrupt e w)) = buffer (tx_buffer w)) ∧
  (∀ c, head (rx_buffer (snd (UART_ReadChar c w))) = head (rx_buffer w) ∧
        buffer (rx_buffer (snd (UART_ReadChar c w))) = buffer (rx_buffer w) ∧
        tx_buffer (snd (UART_ReadChar c w)) = tx_buffer w) ∧
  (∀ fuel timeout_ms r w',
     WaitForData fuel timeout_ms w = Some (r, w') →
     tail (rx_buffer w') = tail (rx_buffer w) ∧
     head (tx_buffer w') = head (tx_buffer w) ∧
     buffer (tx_buffer w') = buffer (tx_buffer w)).
Proof.
  split; [|split].
  - intros [|rxne txe]; [done|]. apply UART_ISR_Handler_roles.
  - intros c. unfold UART_ReadChar. destruct c; [|done]. by destruct (_ =? _).
  - intros fuel T r w' Hrun.
    destruct (WaitForData_loop_roles _ _ _ _ _ Hrun) as [[Ht Htx]|H]; [|done].
    by rewrite Htx.
Qed.

Lemma X14_single_writer_per_index_witness :
  ∃ r w', WaitForData 10 5 (set_schedule (trickle 1 2 65) world_tx_nearly_full)
          = Some (r, w') ∧
          tail (rx_buffer w') = 0 ∧ head (tx_buffer w') = 1022.
Proof.
  destruct (WaitForData 10 5 (set_schedule (trickle 1 2 65) world_tx_nearly_full))
    as [[r w']|] eqn:Hrun; [|vm_compute in Hrun; discriminate].
  exists r, w'. split; [reflexivity|].
  destruct (X14_single_writer_per_index
              (set_schedule (trickle 1 2 65) world_tx_nearly_full))
    as (_ & _ & Hwait).
  destruct (Hwait 10%nat 5 r w' Hrun) as (Ht & Hh & _).
  split; [exact Ht | exact Hh].
Defined.

(** ** Availability and the read that follows *)

Lemma WaitForData_loop_success fuel : ∀ timeout_ms w w1,
  WaitForData_loop fuel timeout_ms w = Some (UART_SUCCESS, w1) →
  UART_Available w1 ≠ 0.
Proof.
  induction fuel as [|fuel IH]; intros T w w1 Hrun; [done|].
  simpl in Hrun. destruct (Z.eqb_spec (UART_Available w) 0) as [?|Hne].
  - destruct (IsTimeOutExpired T w); [done|]. by apply (IH _ _ _ Hrun).
  - by injection Hrun as <-.
Qed.

(** X15. With the indices in range, [UART_Available] lies between 0 and
    1023 and is 0 exactly when [head = tail]: the emptiness test of
    [WaitForData] and that of [UART_ReadChar] agree.  Hence a
    [UART_ReadChar] that follows a successful [WaitForData] always
    succeeds, and the [continue] of the waiting loops after a failed read
    is never taken. *)
Theorem X15_available_agrees_with_read (w : World) :
  world_wf w →
  0 ≤ UART_Available w ≤ UART_BUFFER_SIZE - 1 ∧
  (UART_Available w = 0 ↔ head (rx_buffer w) = tail (rx_buffer w)) ∧
  (∀ fuel timeout_ms w1 v,
     WaitForData fuel timeout_ms w = Some (UART_SUCCESS, w1) →
     ∃ c w2, UART_ReadChar (Some v) w1 = (UART_SUCCESS, Some c, w2)).
Proof.
  intros Hwf.
  assert (Hiff : ∀ w0, rb_wf (rx_buffer w0) →
            (UART_Available w0 = 0 ↔ head (rx_buffer w0) = tail (rx_buffer w0))).
  { intros w0 Hwf0. destruct (UART_Available_wf w0 Hwf0) as [_ ->].
    rewrite rb_contents_length, <- (rb_pending_0 _ Hwf0). lia. }
  split; [|split].
  - destruct Hwf as [Hrx _]. destruct (UART_Available_wf w Hrx) as [_ ->].
    pose proof (rb_contents_bound _ Hrx). lia.
  - apply Hiff. by destruct Hwf.
  - intros fuel T w1 v Hrun.
    pose proof (WaitForData_loop_success _ _ _ _ Hrun) as Hav.
    destruct (WaitForData_wf _ _ _ _ _ Hrun Hwf) as [Hrx1 _].
    rewrite (Hiff w1 Hrx1) in Hav. apply Z.eqb_neq in Hav.
    unfold UART_ReadChar. rewrite Hav. by eexists _, _.
Qed.

Lemma X15_available_agrees_with_read_witness :
  ∃ c w2,
    UART_ReadChar (Some 0) (ResetTimeout (received hello_CRLF world0))
    = (UART_SUCCESS, Some c, w2).
Proof.
  assert (Hwf : world_wf (received hello_CRLF world0)).
  { destruct (received_wf hello_CRLF) as [Hrx _]; [simpl; lia|].
    split; [exact Hrx|]. rewrite received_frame. exact world0_tx_wf. }
  destruct (X15_available_agrees_with_read (received hello_CRLF world0) Hwf)
    as (_ & _ & Hread).
  apply (Hread 1%nat 100). reflexivity.
Defined.

(** ** A blocked write *)

Lemma UART_WriteChar_loop_ticks g : ∀ next_head w t0 fuel rest,
  next_head = tail (tx_buffer w) →
  schedule w = replicate g SysTick ++ rest →
  timeout_start w = u32 t0 → 0 ≤ ticks w - t0 →
  ticks w - t0 + Z.of_nat g ≤ DEFAULT_TIMEOUT_MS →
  UART_WriteChar_loop (g + fuel) next_head w
  = UART_WriteChar_loop fuel next_head
      (set_schedule rest (set_ticks (ticks w + Z.of_nat g) w)).
Proof.
  induction g as [|g IH]; intros nh w t0 fuel rest Hfull Hs Hstart Hel Hlate.
  - simpl in *. rewrite Z.add_0_r, <- Hs. by destruct w.
  - cbn [Nat.add UART_WriteChar_loop].
    destruct (Z.eqb_spec nh (tail (tx_buffer w))) as [_|?]; [|done].
    assert (Hexp : IsTimeOutExpired DEFAULT_TIMEOUT_MS w = false).
    { unfold IsTimeOutExpired, HAL_GetTick. rewrite Hstart.
      apply Z.leb_gt. unfold DEFAULT_TIMEOUT_MS in *. euclid. }
    rewrite Hexp. unfold preempt. rewrite Hs. simpl.
    rewrite (IH _ _ t0 fuel rest); simpl; [|done|done|done|lia|lia].
    f_equal. unfold set_schedule, set_ticks. simpl. f_equal. lia.
Qed.

(** X16. A write into a full TX buffer waits, and goes through as soon as
    a TXE interrupt has drained one byte: with 1023 bytes pending, TXEIE
    set, and the TXE interrupt arriving after [g] < 500 ms,
    [UART_WriteChar] succeeds [g] ms later; the oldest pending byte has
    gone to TDR and the new byte is queued last. *)
Theorem X16_blocked_write_resumes (c x : Z) (q : list Z) (g : nat)
    (rest : list Event) (w : World) :
  rb_wf (tx_buffer w) → rb_contents (tx_buffer w) = x :: q →
  length q = 1022%nat → cr1_txeie w = true →
  Z.of_nat g < DEFAULT_TIMEOUT_MS →
  schedule w = replicate g SysTick ++ Usart None true :: rest →
  ∃ w', (∀ fuel, (g + 2 ≤ fuel)%nat →
           UART_WriteChar fuel c w = Some (UART_SUCCESS, w')) ∧
        tdr_sent w' = tdr_sent w ++ [x] ∧
        rb_contents (tx_buffer w') = q ++ [c] ∧
        ticks w' = ticks w + Z.of_nat g ∧ schedule w' = rest ∧
        cr1_txeie w' = true.
Proof.
  intros Hwf Hq Hlen Hie Hg Hs.
  pose proof Hwf as (Hbl & Hh & Ht).
  set (nh := u16 (Z.rem (head (tx_buffer w) + 1) UART_BUFFER_SIZE)).
  assert (Hfull : nh = tail (tx_buffer w)).
  { subst nh. rewrite next_index by (unfold_ints; lia).
    assert (Hp : rb_pending (tx_buffer w) = 1023%nat).
    { rewrite <- rb_contents_length, Hq. simpl. lia. }
    unfold rb_pending in Hp. euclid. }
  set (wg := set_schedule (Usart None true :: rest)
               (set_ticks (ticks w + Z.of_nat g) (ResetTimeout w))).
  pose proof (UART_ISR_Handler_txe (set_schedule rest wg) Hwf) as Hstep.
  change (tx_buffer (set_schedule rest wg)) with (tx_buffer w) in Hstep.
  rewrite Hq in Hstep. destruct (Hstep Hie) as (Htdr & Hwf1 & Hq1 & Hie1 & _).
  set (w1 := UART_ISR_Handler true None true (set_schedule rest wg)) in *.
  destruct (UART_ISR_Handler_roles true None true (set_schedule rest wg))
    as (_ & Hh1 & Hb1).
  fold w1 in Hh1, Hb1.
  change (tx_buffer (set_schedule rest wg)) with (tx_buffer w) in Hh1, Hb1.
  destruct (UART_ISR_Handler_frame true None true (set_schedule rest wg))
    as (Ht1 & Hts1 & Hs1).
  fold w1 in Ht1, Hts1, Hs1.
  assert (Hroom : Z.of_nat (length (rb_contents (tx_buffer w1)))
                  < UART_BUFFER_SIZE - 1).
  { rewrite Hq1, Hlen. unfold_ints. lia. }
  destruct (StoreChar_room c (tx_buffer w1) Hwf1 Hroom) as (b' & Hst & Hwf' & Hq').
  assert (Hnh : u16 (Z.rem (head (tx_buffer w1) + 1) UART_BUFFER_SIZE) = nh).
  { by rewrite Hh1. }
  unfold StoreChar in Hst. rewrite Hnh in Hst.
  destruct (Z.eqb_spec nh (tail (tx_buffer w1))) as [?|Hne]; [done|].
  injection Hst as <-.
  eexists. split.
  - intros fuel Hfuel. unfold UART_WriteChar. fold nh.
    assert (Hloop : UART_WriteChar_loop (g + 2) nh (ResetTimeout w)
                    = Some (None, w1)).
    { rewrite (UART_WriteChar_loop_ticks g nh (ResetTimeout w) (ticks w) 2
                 (Usart None true :: rest));
        [|done|done|done|simpl; lia|simpl; lia].
      change (UART_WriteChar_loop 2 nh wg = Some (None, w1)).
      cbn [UART_WriteChar_loop].
      change (tx_buffer wg) with (tx_buffer w).
      destruct (Z.eqb_spec nh (tail (tx_buffer w))) as [_|?]; [|done].
      assert (Hexp : IsTimeOutExpired DEFAULT_TIMEOUT_MS wg = false).
      { unfold IsTimeOutExpired, HAL_GetTick. apply Z.leb_gt.
        change (ticks wg) with (ticks w + Z.of_nat g).
        change (timeout_start wg) with (u32 (ticks w)).
        unfold DEFAULT_TIMEOUT_MS in *. euclid. }
      rewrite Hexp.
      change (preempt wg) with w1.
      by destruct (Z.eqb_spec nh (tail (tx_buffer w1))). }
    rewrite (UART_WriteChar_loop_fuel _ _ _ _ fuel Hloop Hfuel). reflexivity.
  - simpl. rewrite Htdr, Ht1, Hs1. simpl. rewrite Hq', Hq1. done.
Qed.

Lemma X16_blocked_write_resumes_witness :
  ∃ w', (∀ fuel, (5 ≤ fuel)%nat →
           UART_WriteChar fuel 66 world_tx_full = Some (UART_SUCCESS, w')) ∧
        tdr_sent w' = [65] ∧
        rb_contents (tx_buffer w') = replicate 1022 65 ++ [66] ∧
        ticks w' = 3.
Proof.
  destruct (X16_blocked_write_resumes 66 65 (replicate 1022 65) 3 []
              world_tx_full)
    as (w' & Hrun & Htdr & Hq & Ht & _).
  - split; [reflexivity|]. vm_compute. repeat split; congruence.
  - reflexivity.
  - reflexivity.
  - reflexivity.
  - reflexivity.
  - reflexivity.
  - exists w'. split; [exact Hrun|]. split; [exact Htdr|]. split; [exact Hq|exact Ht].
Defined.
